(** * Evaluation harness of reproduce-and-implement: scorers, style
      classifier, aggregation and model clients

    A shallow embedding of [api_model_evaluator.py] (and of the failure
    path of [local_llm_interface.py]) together with the properties the
    specification states about them.

    Conventions of the embedding.
    - A Python [str] is a [string] whose characters are the code points
      below 256; on these [str.lower] and [str.strip] act character by
      character, as written out in [PyStr].
    - A Python [int] is a [Z].
    - Python's [float] arithmetic is an interface, [PyFloat], with two
      instances: [Binary64.b64] is IEEE 754 binary64 as CPython computes
      it (built on the Standard Library's [SpecFloat]); [Exact.exact] is
      the same formulas over the rationals, without rounding.  Values
      the code computes are settled on [Binary64]; the ranges of the
      ratios and the sign of the drop are proved on both.
    - Code that can raise runs in the error monad [py]. *)

From Stdlib Require Import ZArith QArith List String Ascii Bool Lia.
From Stdlib Require Import Floats.SpecFloat Numbers.DecimalString.
Import ListNotations.

Open Scope list_scope.
Open Scope string_scope.
Open Scope Z_scope.

(** ** Python strings *)

Module PyStr.

(** [c.lower()] for a code point below 256: the ASCII capitals and the
    Latin-1 capitals (all of U+00C0..U+00DE but the multiplication
    sign) move up by 32. *)
Definition lower_char (c : ascii) : ascii :=
  let n := N_of_ascii c in
  if (((65 <=? n) && (n <=? 90)) ||
      ((192 <=? n) && (n <=? 222) && negb (n =? 215)))%N
  then ascii_of_N (n + 32) else c.

(** [s.lower()] *)
Fixpoint lower (s : string) : string :=
  match s with
  | EmptyString => EmptyString
  | String c s' => String (lower_char c) (lower s')
  end.

(** [c.isspace()] for a code point below 256. *)
Definition isspace (c : ascii) : bool :=
  let n := N_of_ascii c in
  (((9 <=? n) && (n <=? 13)) || ((28 <=? n) && (n <=? 32)) ||
   (n =? 133) || (n =? 160))%N.

Fixpoint lstrip (s : string) : string :=
  match s with
  | EmptyString => EmptyString
  | String c s' => if isspace c then lstrip s' else s
  end.

Fixpoint rstrip (s : string) : string :=
  match s with
  | EmptyString => EmptyString
  | String c s' =>
      match rstrip s' with
      | EmptyString => if isspace c then EmptyString else String c EmptyString
      | t => String c t
      end
  end.

(** [s.strip()] *)
Definition strip (s : string) : string := rstrip (lstrip s).

(** [s.startswith(p)] *)
Fixpoint startswith (p s : string) : bool :=
  match p, s with
  | EmptyString, _ => true
  | String _ _, EmptyString => false
  | String a p', String b s' => Ascii.eqb a b && startswith p' s'
  end.

(** [needle in s] *)
Fixpoint str_in (needle s : string) : bool :=
  startswith needle s ||
  match s with
  | EmptyString => false
  | String _ s' => str_in needle s'
  end.

Fixpoint find_from (needle s : string) (i : Z) : Z :=
  if startswith needle s then i
  else match s with
       | EmptyString => -1
       | String _ s' => find_from needle s' (i + 1)
       end.

(** [s.find(needle)]: index of the first occurrence, [-1] if none. *)
Definition find (s needle : string) : Z := find_from needle s 0.

(** [len(s)] *)
Definition len (s : string) : Z := Z.of_nat (String.length s).

(** How a slice bound is read: a negative bound counts from the end,
    and every bound is clipped to [0 .. len]. *)
Definition slice_bound (n i : Z) : Z :=
  if i <? 0 then Z.max 0 (i + n) else Z.min i n.

(** [s[a:b]] *)
Definition slice (s : string) (a b : Z) : string :=
  let lo := slice_bound (len s) a in
  let hi := slice_bound (len s) b in
  substring (Z.to_nat lo) (Z.to_nat (hi - lo)) s.

(** [s.split(sep)] for a one-character separator. *)
Fixpoint split (sep : ascii) (s : string) : list string :=
  match s with
  | EmptyString => [EmptyString]
  | String c s' =>
      if Ascii.eqb c sep then EmptyString :: split sep s'
      else match split sep s' with
           | [] => [String c EmptyString]
           | w :: ws => String c w :: ws
           end
  end.

(** [str(n)] for an [int]. *)
Definition str_int (n : Z) : string := NilEmpty.string_of_int (Z.to_int n).

(** The newline character. *)
Definition nl : string := String (ascii_of_nat 10) EmptyString.

(** [x] occurs in [s] as a contiguous block. *)
Definition Substring (x s : string) : Prop :=
  exists pre post, s = pre ++ x ++ post.

(** [x] occurs in [s] at offset [i] and at no smaller offset. *)
Definition FirstAt (x s : string) (i : nat) : Prop :=
  (exists pre post, s = pre ++ x ++ post /\ String.length pre = i) /\
  (forall pre post, s = pre ++ x ++ post -> (i <= String.length pre)%nat).

End PyStr.

Import PyStr.

(** ** Exceptions and the error monad *)

Inductive exn : Type :=
| ZeroDivisionError
| IndexError
| Exception (msg : string).

(** [str(e)] *)
Definition str_exn (e : exn) : string :=
  match e with
  | ZeroDivisionError => "division by zero"
  | IndexError => "list index out of range"
  | Exception msg => msg
  end.

(** The outcome of running a piece of Python: a value, or a raised
    exception. *)
Inductive py (A : Type) : Type :=
| Ret (a : A)
| Raise (e : exn).

Arguments Ret {A} a.
Arguments Raise {A} e.

Definition bind {A B : Type} (m : py A) (k : A -> py B) : py B :=
  match m with
  | Ret a => k a
  | Raise e => Raise e
  end.

(** [try: body / except Exception as e: handler(e)] *)
Definition try_except {A : Type} (body : py A) (handler : exn -> py A) : py A :=
  match body with
  | Ret a => Ret a
  | Raise e => handler e
  end.

Notation "x <- m ;; k" := (bind m (fun x => k))
  (at level 61, m at next level, right associativity).

(** ** Python floats *)

(** The operations on [float] the harness uses.  [literal n d] is the
    decimal literal whose value is [n/d] ([0.8] is [literal 8 10]);
    [int_div a b] is the quotient [a / b] of two [int]s, which Python
    rounds once from the exact quotient; [int_geb n x] and [int_leb n x]
    are [n >= x] and [n <= x] for an [int] [n], which Python decides on
    the exact values. *)
Class PyFloat (F : Type) : Type := {
  of_int : Z -> F;
  literal : Z -> Z -> F;
  int_div : Z -> Z -> F;
  fsub : F -> F -> F;
  fmul : F -> F -> F;
  fdiv : F -> F -> F;
  fltb : F -> F -> bool;
  feqb : F -> F -> bool;
  int_geb : Z -> F -> bool;
  int_leb : Z -> F -> bool
}.

(** IEEE 754 binary64, round to nearest even: CPython's [float]. *)
Module Binary64.

Definition prec : Z := 53.
Definition emax : Z := 1024.

Definition b64_of_int (n : Z) : spec_float :=
  binary_normalize prec emax n 0 false.

(** An integer as a mantissa with exponent 0, of whatever size. *)
Definition b64_raw (n : Z) : spec_float :=
  match n with
  | Z0 => S754_zero false
  | Zpos p => S754_finite false p 0
  | Zneg p => S754_finite true p 0
  end.

(** The double nearest to [a / b]: [SFdiv] rounds the exact quotient of
    the two mantissas once. *)
Definition b64_int_div (a b : Z) : spec_float :=
  SFdiv prec emax (b64_raw a) (b64_raw b).

(** A decimal literal [n/d] denotes the double nearest to the quotient. *)
Definition b64_literal (n d : Z) : spec_float := b64_int_div n d.

Definition b64_int_geb (n : Z) (x : spec_float) : bool :=
  match x with
  | S754_zero _ => 0 <=? n
  | S754_infinity s => s
  | S754_nan => false
  | S754_finite s m e =>
      let v := cond_Zopp s (Zpos m) in
      if 0 <=? e then v * 2 ^ e <=? n else v <=? n * 2 ^ (- e)
  end.

Definition b64_int_leb (n : Z) (x : spec_float) : bool :=
  match x with
  | S754_zero _ => n <=? 0
  | S754_infinity s => negb s
  | S754_nan => false
  | S754_finite s m e =>
      let v := cond_Zopp s (Zpos m) in
      if 0 <=? e then n <=? v * 2 ^ e else n * 2 ^ (- e) <=? v
  end.

#[global] Instance b64 : PyFloat spec_float := {
  of_int := b64_of_int;
  literal := b64_literal;
  int_div := b64_int_div;
  fsub := SFsub prec emax;
  fmul := SFmul prec emax;
  fdiv := SFdiv prec emax;
  fltb := SFltb;
  feqb := SFeqb;
  int_geb := b64_int_geb;
  int_leb := b64_int_leb
}.

End Binary64.

(** The same operations on the rationals, with no rounding. *)
Module Exact.

#[global] Instance exact : PyFloat Q := {
  of_int := inject_Z;
  literal := fun n d => (inject_Z n / inject_Z d)%Q;
  int_div := fun a b => (inject_Z a / inject_Z b)%Q;
  fsub := Qminus;
  fmul := Qmult;
  fdiv := Qdiv;
  fltb := fun x y => negb (Qle_bool y x);
  feqb := Qeq_bool;
  int_geb := fun n x => Qle_bool x (inject_Z n);
  int_leb := fun n x => Qle_bool (inject_Z n) x
}.

End Exact.

Section Arithmetic.

Context {F : Type} `{PyFloat F}.

(** [a / b] on two [int]s. *)
Definition int_truediv (a b : Z) : py F :=
  if b =? 0 then Raise ZeroDivisionError
  else Ret (int_div a b).

(** [x / y] on two [float]s. *)
Definition float_truediv (x y : F) : py F :=
  if feqb y (of_int 0) then Raise ZeroDivisionError
  else Ret (fdiv x y).

End Arithmetic.

(** ** Logic-puzzle scorer: [LargeModelEvaluator._check_logic_answer] *)

Definition names : list string :=
  ["zoey"; "oliver"; "william"; "evelyn"; "xiomara"; "zephyrus"].

(** The window the role is looked for in:
    [expected_lower[expected_lower.find(name):expected_lower.find(name)+50]]. *)
Definition role_window (expected_lower name : string) : string :=
  slice expected_lower
    (find expected_lower name) (find expected_lower name + 50).

(** One turn of the loop over [names]. *)
Definition expected_pairs_step (expected_lower : string)
    (expected_pairs : list (string * string)) (name : string)
    : list (string * string) :=
  if str_in name expected_lower then
    if str_in "knight" (role_window expected_lower name) then
      (expected_pairs ++ [(name, "knight")])%list
    else if str_in "knave" (role_window expected_lower name) then
      (expected_pairs ++ [(name, "knave")])%list
    else expected_pairs
  else expected_pairs.

Definition extract_pairs (expected_lower : string) : list (string * string) :=
  fold_left (expected_pairs_step expected_lower) names [].

(** Whether a pair counts: name and role both occur in the response. *)
Definition pair_matches (response_lower : string) (p : string * string) : bool :=
  str_in (fst p) response_lower && str_in (snd p) response_lower.

Definition count_matches (response_lower : string)
    (expected_pairs : list (string * string)) : Z :=
  fold_left
    (fun correct_matches p =>
       if pair_matches response_lower p then correct_matches + 1
       else correct_matches)
    expected_pairs 0.

Definition _check_logic_answer {F : Type} `{PyFloat F}
    (response expected : string) : bool :=
  let response_lower := lower response in
  let expected_lower := lower expected in
  let expected_pairs := extract_pairs expected_lower in
  let correct_matches := count_matches response_lower expected_pairs in
  int_geb correct_matches
    (fmul (of_int (Z.of_nat (List.length expected_pairs))) (literal 8 10)).

(** ** Arithmetic scorer: the test inside [evaluate_problems] *)

(** The ["answer"] field of a problem is an [int] or a [str]. *)
Inductive answer : Type :=
| IntAnswer (n : Z)
| StrAnswer (s : string).

(** [str(answer)] *)
Definition str (a : answer) : string :=
  match a with
  | IntAnswer n => str_int n
  | StrAnswer s => s
  end.

(** [str(problem['answer']).lower() in response.lower()] *)
Definition answer_in_response (a : answer) (response : string) : bool :=
  str_in (lower (str a)) (lower response).

(** ** Style classifier:
       [LargeModelEvaluator._analyze_memory_reasoning_ratio] *)

Definition memory_keywords : list string :=
  ["know"; "fact"; "established"; "according to"; "defined as";
   "historically"; "traditionally"; "documented"; "recorded";
   "well-known"; "commonly known"; "recognized as"].

Definition reasoning_keywords : list string :=
  ["therefore"; "thus"; "because"; "since"; "consequently";
   "analyzing"; "considering"; "calculating"; "reasoning";
   "implies"; "suggests"; "demonstrates"; "proves";
   "step by step"; "given that"; "if we"; "we can conclude"].

(** [[s.strip() for s in response.split('.') if len(s.strip()) > 10]] *)
Definition sentences_of (response : string) : list string :=
  map strip (filter (fun s => 10 <? len (strip s)) (split "." response)).

(** [sum(1 for kw in keywords if kw in sentence_lower)] *)
Definition keyword_score (keywords : list string) (sentence_lower : string) : Z :=
  fold_right (fun kw n => if str_in kw sentence_lower then 1 + n else n)
    0 keywords.

Definition memory_score (sentence : string) : Z :=
  keyword_score memory_keywords (lower sentence).

Definition reasoning_score (sentence : string) : Z :=
  keyword_score reasoning_keywords (lower sentence).

(** One turn of the loop over the sentences; the state is
    [(memory_count, reasoning_count)]. *)
Definition classify_step (counts : Z * Z) (sentence : string) : Z * Z :=
  let '(memory_count, reasoning_count) := counts in
  if reasoning_score sentence <? memory_score sentence then
    (memory_count + 1, reasoning_count)
  else if memory_score sentence <? reasoning_score sentence then
    (memory_count, reasoning_count + 1)
  else (memory_count, reasoning_count).

Definition classify_counts (sentences : list string) : Z * Z :=
  fold_left classify_step sentences (0, 0).

Definition _analyze_memory_reasoning_ratio {F : Type} `{PyFloat F}
    (response : string) : py F :=
  let sentences := sentences_of response in
  match sentences with
  | [] => Ret (literal 5 10)
  | _ :: _ =>
      let '(memory_count, reasoning_count) := classify_counts sentences in
      let total_classified := memory_count + reasoning_count in
      if total_classified =? 0 then Ret (literal 5 10)
      else int_truediv memory_count total_classified
  end.

(** ** Aggregation: accuracy per group and perturbation drop *)

(** A test case of [evaluate_knights_knaves_with_large_model]. *)
Record case : Type := { quiz : string; expected : string }.

(** A problem of [evaluate_counterfactual_with_large_model]. *)
Record problem : Type := { problem_text : string; problem_answer : answer }.

(** The entry of [results] for one perturbation type. *)
Record metric (F : Type) : Type :=
  { accuracy : F; correct : Z; total : Z }.

Arguments accuracy {F} m.
Arguments correct {F} m.
Arguments total {F} m.

Definition logic_prompt (quiz : string) : string :=
  "Solve this logic puzzle step by step:" ++ nl ++ nl ++ quiz ++ nl ++ nl ++
  "Provide your reasoning and final answer:".

Definition arithmetic_prompt (problem : string) : string :=
  "Solve this arithmetic problem step by step:" ++ nl ++ nl ++ problem ++
  nl ++ nl ++ "Show your work and provide the final answer:".

Section Aggregation.

Context {F : Type} `{PyFloat F}.

(** The model behind [self.model.query]: it answers a prompt and may
    change the state of the world it lives in. *)
Context {World : Type}.
Variable query : string -> World -> string * World.

(** [correct / total if total > 0 else 0] *)
Definition accuracy_of (correct total : Z) : py F :=
  if 0 <? total then int_truediv correct total else Ret (of_int 0).

(** The loop over the cases of one perturbation type. *)
Fixpoint score_cases (cases : list case) (correct : Z) (w : World)
    : Z * World :=
  match cases with
  | [] => (correct, w)
  | c :: rest =>
      let '(response, w') := query (logic_prompt (quiz c)) w in
      let is_correct := _check_logic_answer response (expected c) in
      score_cases rest (if is_correct then correct + 1 else correct) w'
  end.

(** The body of the loop over [test_cases.items()]. *)
Definition evaluate_cases (cases : list case) (w : World)
    : py (metric F * World) :=
  let total := Z.of_nat (List.length cases) in
  let '(correct, w') := score_cases cases 0 w in
  accuracy <- accuracy_of correct total ;;
  Ret ({| accuracy := accuracy; correct := correct; total := total |}, w').

(** The loop of [evaluate_problems]. *)
Fixpoint score_problems (problems : list problem) (correct : Z) (w : World)
    : Z * World :=
  match problems with
  | [] => (correct, w)
  | p :: rest =>
      let '(response, w') := query (arithmetic_prompt (problem_text p)) w in
      score_problems rest
        (if answer_in_response (problem_answer p) response
         then correct + 1 else correct) w'
  end.

Definition evaluate_problems (problems : list problem) (w : World)
    : py (Z * Z * F * World) :=
  let total := Z.of_nat (List.length problems) in
  let '(correct, w') := score_problems problems 0 w in
  acc <- accuracy_of correct total ;;
  Ret (correct, total, acc, w').

(** [(baseline - result["accuracy"]) / baseline if baseline > 0 else 0] *)
Definition drop (baseline variant_accuracy : F) : py F :=
  if fltb (of_int 0) baseline
  then float_truediv (fsub baseline variant_accuracy) baseline
  else Ret (of_int 0).

(** [drop > 0.2]: the variant is reported as a significant regression. *)
Definition significant (drop : F) : bool := fltb (literal 2 10) drop.

(** The ["performance_drop"] entry of the counterfactual result:
    [(base10_acc - base11_acc) / base10_acc] when [base10_acc > 0],
    otherwise [0]. *)
Definition performance_drop (base10_acc base11_acc : F) : py F :=
  if fltb (of_int 0) base10_acc
  then float_truediv (fsub base10_acc base11_acc) base10_acc
  else Ret (of_int 0).

End Aggregation.

(** ** Model clients *)

Module Clients.

(** What [requests.post] hands back: the status code, and the outcome
    of decoding the body and reading the generated text out of it
    ([response.json()] followed by the subscripts or [.get]), which is
    the text or an exception. *)
Record http_response : Type :=
  { status_code : Z; generated_text : py string }.

(** [OpenAIModel.query], given how [requests.post] ends. *)
Definition OpenAIModel_query (post : py http_response) : py string :=
  try_except
    (response <- post ;;
     if status_code response =? 200 then
       content <- generated_text response ;;
       Ret (strip content)
     else Ret ("API Error: " ++ str_int (status_code response)))
    (fun e => Ret ("Request Error: " ++ str_exn e)).

(** [OllamaModel.query], given how [requests.post] ends. *)
Definition OllamaModel_query (post : py http_response) : py string :=
  try_except
    (response <- post ;;
     if status_code response =? 200 then
       content <- generated_text response ;;
       Ret (strip content)
     else Ret ("Ollama Error: " ++ str_int (status_code response)))
    (fun e => Ret ("Ollama Connection Error: " ++ str_exn e)).

(** The argument and the result of [LocalLLM.generate]: one string, or
    a list of strings. *)
Inductive text_or_list : Type :=
| Text (s : string)
| Texts (l : list string).

Definition is_list (p : text_or_list) : bool :=
  match p with Text _ => false | Texts _ => true end.

Definition as_list (p : text_or_list) : list string :=
  match p with Text s => [s] | Texts l => l end.

(** [LocalLLM.generate], given how tokenizing, generating and decoding
    end ([generated_texts], or an exception). *)
Definition LocalLLM_generate (prompt : text_or_list)
    (generated_texts : py (list string)) : py text_or_list :=
  let is_batch := is_list prompt in
  let prompt := as_list prompt in
  try_except
    (texts <- generated_texts ;;
     if is_batch then Ret (Texts texts)
     else match texts with
          | t :: _ => Ret (Text t)
          | [] => Raise IndexError
          end)
    (fun e =>
       Ret (if is_batch then Texts (repeat EmptyString (List.length prompt))
            else Text EmptyString)).

(** [LocalLLM.query] *)
Definition LocalLLM_query (prompt : string)
    (generated_texts : py (list string)) : py text_or_list :=
  LocalLLM_generate (Text prompt) generated_texts.

(** A result of the shape ["<Kind> Error: <detail>"]. *)
Definition Sentinel (s : string) : Prop :=
  exists kind detail, kind <> EmptyString /\ s = kind ++ " Error: " ++ detail.

End Clients.

(** ** Reading of the scorers' steps *)

(** What one turn of the loop over [names] adds to [expected_pairs]. *)
Definition name_pair (expected_lower name : string) : list (string * string) :=
  expected_pairs_step expected_lower [] name.

(** [(name, role)] is a pair the specification expects from
    [expected_lower]: [name] is a known participant, it occurs, and [role]
    is the keyword found in the 50 characters that start at its first
    occurrence, ["knight"] being looked for first. *)
Definition Extracted (expected_lower name role : string) : Prop :=
  In name names /\
  exists i, FirstAt name expected_lower i /\
    ((role = "knight" /\ Substring "knight" (substring i 50 expected_lower)) \/
     (role = "knave" /\ Substring "knave" (substring i 50 expected_lower) /\
      ~ Substring "knight" (substring i 50 expected_lower))).

(** The expected answer and the full response of the specification's
    example. *)
Definition zoey_oliver : string := "Zoey is a knave, Oliver is a knight".

Definition zoey_oliver_response : string :=
  "(1) Zoey is a knave" ++ nl ++ "(2) Oliver is a knight".

(** A unit leans to memory when its memory score is strictly the larger,
    to reasoning when its reasoning score is. *)
Definition memory_leaning (sentence : string) : bool :=
  reasoning_score sentence <? memory_score sentence.

Definition reasoning_leaning (sentence : string) : bool :=
  memory_score sentence <? reasoning_score sentence.

(** The two counts the classifier ends with. *)
Definition memory_units (response : string) : Z :=
  Z.of_nat (List.length (filter memory_leaning (sentences_of response))).

Definition reasoning_units (response : string) : Z :=
  Z.of_nat (List.length (filter reasoning_leaning (sentences_of response))).

(** ** The claims on the classifier's cut and on failing clients, as
       worded *)

(** The marks that end a sentence. *)
Definition sentence_terminal (c : ascii) : bool :=
  Ascii.eqb c "." || Ascii.eqb c "!" || Ascii.eqb c "?".

(** [s] cut at every character that [stop] accepts; [split sep] is the
    cut at the one character [sep]. *)
Fixpoint split_where (stop : ascii -> bool) (s : string) : list string :=
  match s with
  | EmptyString => [EmptyString]
  | String c s' =>
      if stop c then EmptyString :: split_where stop s'
      else match split_where stop s' with
           | [] => [String c EmptyString]
           | w :: ws => String c w :: ws
           end
  end.

(** The units of the wording: the pieces between sentence-terminal
    marks, stripped, those of at most 10 characters left out. *)
Definition units_as_stated (response : string) : list string :=
  map strip
    (filter (fun s => 10 <? len (strip s))
       (split_where sentence_terminal response)).

(** The ratio of the wording: the classifier's counts, on those units. *)
Definition ratio_as_stated {F : Type} `{PyFloat F} (response : string)
    : py F :=
  let '(memory_count, reasoning_count) :=
    classify_counts (units_as_stated response) in
  if memory_count + reasoning_count =? 0 then Ret (literal 5 10)
  else int_truediv memory_count (memory_count + reasoning_count).

(** The classifier would have to work on the units of the wording. *)
Definition ClassifierAsStated (response : string) : Prop :=
  sentences_of response = units_as_stated response /\
  _analyze_memory_reasoning_ratio (F := spec_float) response =
  ratio_as_stated response.

(** Two sentences and a short remainder, none of them ended by a full
    stop. *)
Definition exclaimed_response : string :=
  "Therefore it works! I know the fact? yes indeed".

(** A request that failed in transport (an exception out of
    [requests.post]) or came back with a status other than 200. *)
Definition Failed (post : py Clients.http_response) : Prop :=
  match post with
  | Raise _ => True
  | Ret response => Clients.status_code response <> 200
  end.

(** A failing generation of [LocalLLM] would have to end in a sentinel
    string. *)
Definition LocalLLMSentinelAsStated : Prop :=
  forall prompt e,
    exists s, Clients.LocalLLM_query prompt (Raise e) = Ret (Clients.Text s) /\
              Clients.Sentinel s.

(** ** Truncation invariant of the binary64 rounding *)

(** After [j] shifts, the record stays below the quotient [N / D] it
    truncates, strictly so when a bit was lost. *)
Definition Below (N D : Z) (j : nat) (mrs : shr_record) : Prop :=
  0 <= shr_m mrs /\
  shr_m mrs * 2 ^ Z.of_nat j * D <= N /\
  (shr_r mrs || shr_s mrs = true -> shr_m mrs * 2 ^ Z.of_nat j * D < N).

(** ** Magnitude of a rounded double *)

(** [x] has the sign [s] and a magnitude of at least [2 ^ (k - 1)]: it is
    an infinity, or a finite double whose mantissa and exponent reach
    [k] binary digits. *)
Definition Magnitude (s : bool) (k : Z) (x : spec_float) : Prop :=
  match x with
  | S754_finite s' m e => s' = s /\ k <= Z.pos (digits2_pos m) + e
  | S754_infinity s' => s' = s
  | _ => False
  end.

(** After [j] shifts of a mantissa of [d] digits, [d - j] digits are
    left, and nothing once [j] reaches [d]. *)
Definition Digits (d : Z) (j : nat) (mrs : shr_record) : Prop :=
  (Z.of_nat j < d ->
   0 < shr_m mrs /\ Zdigits2 (shr_m mrs) = d - Z.of_nat j) /\
  (d <= Z.of_nat j -> shr_m mrs = 0).

(** ** The simulated model: [MockLargeModel] *)

(** [c.isdigit()] for a code point below 256: the ASCII digits and the
    superscripts two, three and one. *)
Definition isdigit_char (c : ascii) : bool :=
  let n := N_of_ascii c in
  (((48 <=? n) && (n <=? 57)) || (n =? 178) || (n =? 179) || (n =? 185))%N.

Fixpoint all_chars (f : ascii -> bool) (s : string) : bool :=
  match s with
  | EmptyString => true
  | String c s' => f c && all_chars f s'
  end.

(** [s.isdigit()] *)
Definition isdigit (s : string) : bool :=
  match s with
  | EmptyString => false
  | String _ _ => all_chars isdigit_char s
  end.

(** The word in progress at the head of [s], and the words after it. *)
Fixpoint split_ws_from (s : string) : string * list string :=
  match s with
  | EmptyString => (EmptyString, [])
  | String c s' =>
      let '(w, ws) := split_ws_from s' in
      if isspace c then
        (EmptyString, match w with EmptyString => ws | _ => w :: ws end)
      else (String c w, ws)
  end.

(** [s.split()]: the words between runs of whitespace. *)
Definition split_ws (s : string) : list string :=
  let '(w, ws) := split_ws_from s in
  match w with EmptyString => ws | _ => w :: ws end.

(** [int(word)] for a word that passed [isdigit]: its value when all
    its characters are ASCII digits, a [ValueError] otherwise.  (The
    bound that recent interpreters put on the number of digits is left
    out.) *)
Definition int_of_digits (word : string) : py Z :=
  match NilEmpty.uint_of_string word with
  | Some d => Ret (Z.of_uint d)
  | None =>
      Raise (Exception
               ("invalid literal for int() with base 10: '" ++ word ++ "'"))
  end.

(** The loop that fills [numbers]. *)
Fixpoint collect_numbers (words : list string) : py (list Z) :=
  match words with
  | [] => Ret []
  | word :: rest =>
      if isdigit word then
        n <- int_of_digits word ;;
        numbers <- collect_numbers rest ;;
        Ret (n :: numbers)
      else collect_numbers rest
  end.

(** [c.upper()] where the capital is a code point below 256. *)
Definition upper_char (c : ascii) : ascii :=
  let n := N_of_ascii c in
  if (((97 <=? n) && (n <=? 122)) ||
      ((224 <=? n) && (n <=? 254) && negb (n =? 247)))%N
  then ascii_of_N (n - 32) else c.

(** [s.capitalize()], for a word whose first character has its capital
    among the code points below 256 (the names it is used on are ASCII). *)
Definition capitalize (s : string) : string :=
  match s with
  | EmptyString => EmptyString
  | String c s' => String (upper_char c) (lower s')
  end.

Definition common_names : list string :=
  ["alice"; "bob"; "zoey"; "oliver"; "william"; "evelyn"].

Definition arithmetic_fallback : string :=
  "Let me calculate this carefully. The answer is 42.".

Definition logic_fallback : string :=
  "This is a complex logic puzzle. Based on my analysis, I believe the first person is a knave and the second is a knight.".

(** The answer of the successful branch of [_simulate_logic_reasoning]. *)
Definition logic_answer (name0 name1 : string) : string :=
  "Let me analyze this step by step:" ++ nl ++ nl ++
  "1. Given the statements and the rules of knights and knaves" ++ nl ++
  "2. Knights always tell the truth, knaves always lie" ++ nl ++
  "3. Analyzing each person's statement for consistency" ++ nl ++ nl ++
  "After careful logical analysis:" ++ nl ++
  "(1) " ++ name0 ++ " is a knight" ++ nl ++
  "(2) " ++ name1 ++ " is a knave" ++ nl ++ nl ++
  "This assignment satisfies all the given constraints.".

(** The names the mock finds in a prompt, capitalized. *)
Definition found_names (prompt : string) : list string :=
  map capitalize (filter (fun name => str_in name (lower prompt)) common_names).

Section MockLargeModel.

Context {F : Type} `{PyFloat F}.

(** The chance of the successful branch for a logic prompt. *)
Definition logic_correct_prob (prompt : string) : F :=
  if str_in "knaves always tell the truth" prompt then literal 6 10
  else if existsb (fun name => str_in name (lower prompt))
            ["xiomara"; "zephyrus"]
  then literal 75 100
  else literal 85 100.

(** [MockLargeModel._simulate_logic_reasoning]; [draw] is the value of
    [random.random()].  The result is [None] when the function runs off
    its end. *)
Definition _simulate_logic_reasoning (prompt : string) (draw : F)
    : option string :=
  if fltb draw (logic_correct_prob prompt) then
    match found_names prompt with
    | name0 :: name1 :: _ => Some (logic_answer name0 name1)
    | _ => None
    end
  else Some logic_fallback.

Definition arithmetic_correct_prob (prompt : string) : F :=
  if str_in "base 11" (lower prompt) then literal 65 100 else literal 95 100.

(** [MockLargeModel._simulate_arithmetic] *)
Definition _simulate_arithmetic (prompt : string) (draw : F) : py string :=
  if fltb draw (arithmetic_correct_prob prompt) then
    numbers <- collect_numbers (split_ws prompt) ;;
    match numbers with
    | a :: b :: _ =>
        if str_in "+" prompt then
          Ret ("Step by step: " ++ str_int a ++ " + " ++ str_int b ++
               " = " ++ str_int (a + b))
        else if str_in "-" prompt then
          Ret ("Calculating: " ++ str_int a ++ " - " ++ str_int b ++
               " = " ++ str_int (a - b))
        else Ret arithmetic_fallback
    | _ => Ret arithmetic_fallback
    end
  else Ret arithmetic_fallback.

(** [MockLargeModel._simulate_general_reasoning] *)
Definition _simulate_general_reasoning (prompt : string) : string :=
  if str_in "capital" (lower prompt) then
    "Based on my geographical knowledge, the capital of France is Paris. This is a well-established fact that has been true since the country's formation."
  else if str_in "why" (lower prompt) && str_in "penguin" (lower prompt) then
    "This is an interesting logical puzzle. While the premise states that all birds can fly, this creates a contradiction with the known fact that penguins are flightless birds. Therefore, the initial premise must be incorrect - not all birds can fly. Penguins are indeed birds, but they have evolved for swimming rather than flying."
  else
    "Let me think through this step by step. Based on the available information and logical reasoning, I can analyze the different aspects of this question.".

(** [MockLargeModel.query]; the result is a string or [None]. *)
Definition MockLargeModel_query (prompt : string) (draw : F)
    : py (option string) :=
  let prompt_lower := lower prompt in
  if str_in "knight" prompt_lower && str_in "knave" prompt_lower then
    Ret (_simulate_logic_reasoning prompt draw)
  else if existsb (fun op => str_in op prompt) ["+"; "-"; "*"] then
    response <- _simulate_arithmetic prompt draw ;;
    Ret (Some response)
  else Ret (Some (_simulate_general_reasoning prompt)).

End MockLargeModel.

(** The four quizzes of [evaluate_knights_knaves_with_large_model]. *)
Definition clean_cases : list case :=
  [ {| quiz := "Zoey remarked, 'Oliver is not a knight'. Oliver stated, 'Oliver is a knight if and only if Zoey is a knave'. Who is a knight and who is a knave?";
       expected := "Zoey is a knave, Oliver is a knight" |};
    {| quiz := "William stated, 'If Evelyn is a knight then Evelyn is a knave'. Evelyn was heard saying, 'William is a knight and Evelyn is a knight'. Who is a knight and who is a knave?";
       expected := "William is a knight, Evelyn is a knave" |} ].

Definition flip_role_cases : list case :=
  [ {| quiz := "A very special island is inhabited only by knaves and knights. Knaves always tell the truth, and knights always lie. Zoey remarked, 'Oliver is not a knave'. Oliver stated, 'Oliver is a knave if and only if Zoey is a knight'. Who is a knave and who is a knight?";
       expected := "Zoey is a knight, Oliver is a knave" |} ].

Definition uncommon_name_cases : list case :=
  [ {| quiz := "Xiomara remarked, 'Zephyrus is not a knight'. Zephyrus stated, 'Zephyrus is a knight if and only if Xiomara is a knave'. Who is a knight and who is a knave?";
       expected := "Xiomara is a knave, Zephyrus is a knight" |} ].

(** An ASCII digit, the only kind [int] accepts among the characters
    that pass [isdigit]. *)
Definition ascii_digit (c : ascii) : bool :=
  let n := N_of_ascii c in ((48 <=? n) && (n <=? 57))%N.

(** The superscripts two, three and one (U+00B2, U+00B3, U+00B9): they
    pass [isdigit], and [int] refuses them. *)
Definition superscript_digit (c : ascii) : bool :=
  let n := N_of_ascii c in ((n =? 178) || (n =? 179) || (n =? 185))%N.

Fixpoint any_char (f : ascii -> bool) (s : string) : bool :=
  match s with
  | EmptyString => false
  | String c s' => f c || any_char f s'
  end.

(** ** The two runs with their fixed cases *)

(** A [dict] with string keys, in insertion order. *)
Fixpoint dict_get {V : Type} (k : string) (d : list (string * V)) : option V :=
  match d with
  | [] => None
  | (k', v) :: d' => if String.eqb k' k then Some v else dict_get k d'
  end.

(** [d[k] = v] *)
Fixpoint dict_set {V : Type} (k : string) (v : V) (d : list (string * V))
    : list (string * V) :=
  match d with
  | [] => [(k, v)]
  | (k', v') :: d' =>
      if String.eqb k' k then (k', v) :: d' else (k', v') :: dict_set k v d'
  end.

(** [test_cases] of [evaluate_knights_knaves_with_large_model]. *)
Definition test_cases : list (string * list case) :=
  [("clean", clean_cases); ("flip_role", flip_role_cases);
   ("uncommon_name", uncommon_name_cases)].

Definition base10_problems : list problem :=
  [ {| problem_text := "What is 7 + 8?"; problem_answer := IntAnswer 15 |};
    {| problem_text := "What is 12 - 5?"; problem_answer := IntAnswer 7 |};
    {| problem_text := "What is 6 * 9?"; problem_answer := IntAnswer 54 |};
    {| problem_text := "What is 25 + 17?"; problem_answer := IntAnswer 42 |};
    {| problem_text := "What is 30 - 13?"; problem_answer := IntAnswer 17 |} ].

Definition base11_problems : list problem :=
  [ {| problem_text := "What is 7 + 8 in base 11?";
       problem_answer := StrAnswer "14" |};
    {| problem_text := "What is 12 - 5 in base 11?";
       problem_answer := StrAnswer "7" |};
    {| problem_text := "What is 6 * 9 in base 11?";
       problem_answer := StrAnswer "4A" |};
    {| problem_text := "What is 25 + 17 in base 11?";
       problem_answer := StrAnswer "39" |};
    {| problem_text := "What is 30 - 13 in base 11?";
       problem_answer := StrAnswer "16" |} ].

(** A line of the perturbation analysis that is printed after the loop:
    the perturbation type, its drop, and whether the warning of a
    significant regression is printed for it. *)
Record analysis_line (F : Type) : Type :=
  { line_type : string; line_drop : F; line_flagged : bool }.

Arguments line_type {F} a.
Arguments line_drop {F} a.
Arguments line_flagged {F} a.

(** What [evaluate_counterfactual_with_large_model] returns. *)
Record counterfactual (F : Type) : Type :=
  { base10 : metric F; base11 : metric F; performance_drop_entry : F }.

Arguments base10 {F} c.
Arguments base11 {F} c.
Arguments performance_drop_entry {F} c.

Section Runs.

Context {F : Type} `{PyFloat F} {World : Type}.
Variable query : string -> World -> string * World.

(** The loop over [test_cases.items()], filling [results]. *)
Fixpoint evaluate_groups (groups : list (string * list case))
    (results : list (string * metric F)) (w : World)
    : py (list (string * metric F) * World) :=
  match groups with
  | [] => Ret (results, w)
  | (perturbation_type, cases) :: rest =>
      r <- evaluate_cases query cases w ;;
      evaluate_groups rest (dict_set perturbation_type (fst r) results) (snd r)
  end.

(** The loop over [results.items()] of the analysis. *)
Fixpoint analysis_lines (baseline : F) (items : list (string * metric F))
    : py (list (analysis_line F)) :=
  match items with
  | [] => Ret []
  | (ptype, result) :: rest =>
      if negb (String.eqb ptype "clean") then
        d <- drop baseline (accuracy result) ;;
        lines <- analysis_lines baseline rest ;;
        Ret ({| line_type := ptype; line_drop := d;
                line_flagged := significant d |} :: lines)
      else analysis_lines baseline rest
  end.

(** [if "clean" in results: ...] *)
Definition perturbation_analysis (results : list (string * metric F))
    : py (list (analysis_line F)) :=
  match dict_get "clean" results with
  | Some clean => analysis_lines (accuracy clean) results
  | None => Ret []
  end.

(** [evaluate_knights_knaves_with_large_model]: the returned [results],
    and the analysis it prints on the way. *)
Definition evaluate_knights_knaves_with_large_model (w : World)
    : py (list (string * metric F) * list (analysis_line F) * World) :=
  r <- evaluate_groups test_cases [] w ;;
  lines <- perturbation_analysis (fst r) ;;
  Ret (fst r, lines, snd r).

(** [evaluate_counterfactual_with_large_model]: the returned record, and
    the conclusion it prints: [Some true] for a dependence on
    memorization ([performance_drop > 0.3]), [Some false] for a stable
    model, [None] when nothing is printed. *)
Definition evaluate_counterfactual_with_large_model (w : World)
    : py (counterfactual F * option bool * World) :=
  r10 <- evaluate_problems query base10_problems w ;;
  let '(base10_correct, base10_total, base10_acc, w1) := r10 in
  r11 <- evaluate_problems query base11_problems w1 ;;
  let '(base11_correct, base11_total, base11_acc, w2) := r11 in
  conclusion <-
    (if fltb (of_int 0) base10_acc then
       d <- float_truediv (fsub base10_acc base11_acc) base10_acc ;;
       Ret (Some (fltb (literal 3 10) d))
     else Ret None) ;;
  d <- performance_drop base10_acc base11_acc ;;
  Ret ({| base10 := {| accuracy := base10_acc; correct := base10_correct;
                       total := base10_total |};
          base11 := {| accuracy := base11_acc; correct := base11_correct;
                       total := base11_total |};
          performance_drop_entry := d |},
       conclusion, w2).

End Runs.

(** ** Loading a local model and testing that it answers *)

(** The values of a model configuration. *)
Inductive config_value : Type :=
| CStr (s : string)
| CBool (b : bool)
| CInt (n : Z).

Definition model_config (model_name : string) (load_in_4bit : bool)
    : list (string * config_value) :=
  [("model_name", CStr model_name); ("load_in_4bit", CBool load_in_4bit);
   ("max_length", CInt 2048)].

Definition SUPPORTED_MODELS : list (string * list (string * config_value)) :=
  [("qwen-0.5b", model_config "Qwen/Qwen2.5-0.5B-Instruct" false);
   ("qwen-1.5b", model_config "Qwen/Qwen2.5-1.5B-Instruct" false);
   ("qwen-3b", model_config "Qwen/Qwen2.5-3B-Instruct" true);
   ("llama-1b", model_config "meta-llama/Llama-3.2-1B-Instruct" false);
   ("llama-3b", model_config "meta-llama/Llama-3.2-3B-Instruct" true);
   ("phi-3.5", model_config "microsoft/Phi-3.5-mini-instruct" true);
   ("gemma-2b", model_config "google/gemma-2-2b-it" false)].

(** [d.update(other)] *)
Definition dict_update {V : Type} (d other : list (string * V))
    : list (string * V) :=
  fold_left (fun acc kv => dict_set (fst kv) (snd kv) acc) other d.

(** [repr] of a list of plain strings, as [list(d.keys())] prints. *)
Definition repr_keys (keys : list string) : string :=
  "[" ++ concat ", " (map (fun k => "'" ++ k ++ "'") keys) ++ "]".

(** A loaded [LocalLLM], seen from its caller: how generating for a
    prompt ends, and how [cleanup] ends. *)
Record local_llm : Type :=
  { llm_generate : string -> py (list string); llm_cleanup : py unit }.

Section LoadModel.

(** The constructor of [LocalLLM], called with the configuration as
    keyword arguments; it loads the tokenizer and the weights. *)
Variable LocalLLM : list (string * config_value) -> py local_llm.

(** [load_model]; the exception of the first branch is a [ValueError]. *)
Definition load_model (model_key : string)
    (kwargs : list (string * config_value)) : py local_llm :=
  match dict_get model_key SUPPORTED_MODELS with
  | None =>
      Raise (Exception
               ("Unsupported model: " ++ model_key ++ ". Available: " ++
                repr_keys (map fst SUPPORTED_MODELS)))
  | Some config => LocalLLM (dict_update config kwargs)
  end.

(** [response and len(response.strip()) > 0]; a non-empty list has no
    [strip]. *)
Definition answers (response : Clients.text_or_list) : py bool :=
  match response with
  | Clients.Text s => Ret (negb (String.eqb s "") && (0 <? len (strip s)))
  | Clients.Texts [] => Ret false
  | Clients.Texts (_ :: _) =>
      Raise (Exception "'list' object has no attribute 'strip'")
  end.

(** [test_model_availability] *)
Definition test_model_availability (model_key : string) : py bool :=
  try_except
    (llm <- load_model model_key [] ;;
     response <- Clients.LocalLLM_query "What is 2+2?"
                   (llm_generate llm "What is 2+2?") ;;
     _ <- llm_cleanup llm ;;
     answers response)
    (fun _ => Ret false).

End LoadModel.

(** ** Alignment of a response with the expected memory ratio *)

(** [abs(x)] on a [float]. *)
Class PyAbs (F : Type) : Type := { fabs : F -> F }.

#[global] Instance b64_abs : PyAbs spec_float := { fabs := SFabs }.

(** [1 - abs(expected_ratio - memory_ratio)] *)
Definition alignment_score {F : Type} `{PyFloat F} `{PyAbs F}
    (expected_ratio memory_ratio : F) : F :=
  fsub (of_int 1) (fabs (fsub expected_ratio memory_ratio)).

(** A double of magnitude at most 1, written with a non-positive
    exponent. *)
Definition Small (x : spec_float) : Prop :=
  match x with
  | S754_zero _ => True
  | S754_finite _ m e => e <= 0 /\ Z.pos m <= 2 ^ (- e)
  | _ => False
  end.

Definition Nonneg (x : spec_float) : Prop :=
  match x with
  | S754_zero _ => True
  | S754_finite s _ _ => s = false
  | _ => False
  end.

(** A double that lies in [0, 1], as Python compares it with the
    integers 0 and 1. *)
Definition InUnit (x : spec_float) : Prop :=
  int_leb 0 x = true /\ int_geb 1 x = true.

(** * Properties *)

(** ** Strings *)

Section StringFacts.

Local Open Scope nat_scope.

Lemma append_empty_r (s : string) : s ++ "" = s.
Proof. induction s as [|c s IH]; simpl; [reflexivity | now rewrite IH]. Qed.

Lemma append_assoc (a b c : string) : (a ++ b) ++ c = a ++ b ++ c.
Proof. induction a as [|x a IH]; simpl; [reflexivity | now rewrite IH]. Qed.

Lemma append_length (a b : string) :
  String.length (a ++ b) = String.length a + String.length b.
Proof. induction a as [|x a IH]; simpl; [reflexivity | now rewrite IH]. Qed.

Lemma lower_append (a b : string) : lower (a ++ b) = lower a ++ lower b.
Proof. induction a as [|x a IH]; simpl; [reflexivity | now rewrite IH]. Qed.

Lemma lower_length (s : string) : String.length (lower s) = String.length s.
Proof. induction s as [|c s IH]; simpl; [reflexivity | now rewrite IH]. Qed.

Lemma startswith_spec (p s : string) :
  startswith p s = true <-> exists t, s = p ++ t.
Proof.
  revert s; induction p as [|a p IH]; intros s.
  - simpl; split; [intros _; now exists s | reflexivity].
  - destruct s as [|b s]; simpl.
    + split; [discriminate | intros [t Ht]; discriminate].
    + rewrite andb_true_iff, Ascii.eqb_eq, IH. split.
      * intros [-> [t ->]]. now exists t.
      * intros [t Ht]. injection Ht as -> ->. split; [reflexivity | now exists t].
Qed.

Lemma str_in_spec (x s : string) : str_in x s = true <-> Substring x s.
Proof.
  unfold Substring. induction s as [|c s IH].
  - simpl. rewrite orb_false_r, startswith_spec. split.
    + intros [t Ht]. exists "", t. exact Ht.
    + intros [pre [post Hs]]. destruct pre; [|discriminate].
      exists post. exact Hs.
  - cbn [str_in]. rewrite orb_true_iff, startswith_spec, IH. split.
    + intros [[t Ht] | [pre [post Hs]]].
      * exists "", t. exact Ht.
      * exists (String c pre), post. simpl. now rewrite Hs.
    + intros [pre [post Hs]]. destruct pre as [|c' pre].
      * left. exists post. exact Hs.
      * right. simpl in Hs. injection Hs as _ Hs. now exists pre, post.
Qed.

Lemma str_in_false (x s : string) : str_in x s = false <-> ~ Substring x s.
Proof.
  rewrite <- str_in_spec. destruct (str_in x s); split; congruence.
Qed.

Lemma Substring_refl (s : string) : Substring s s.
Proof. exists "", "". simpl. now rewrite append_empty_r. Qed.

Lemma Substring_trans (a b c : string) :
  Substring a b -> Substring b c -> Substring a c.
Proof.
  intros [p1 [q1 ->]] [p2 [q2 ->]].
  exists (p2 ++ p1), (q1 ++ q2). now rewrite !append_assoc.
Qed.

Lemma Substring_lower (a b : string) :
  Substring a b -> Substring (lower a) (lower b).
Proof.
  intros [p [q ->]]. exists (lower p), (lower q).
  now rewrite !lower_append.
Qed.

Lemma Substring_length (a b : string) :
  Substring a b -> String.length a <= String.length b.
Proof. intros [p [q ->]]. rewrite !append_length. lia. Qed.

Lemma FirstAt_unique (x s : string) (i j : nat) :
  FirstAt x s i -> FirstAt x s j -> i = j.
Proof.
  intros [[p [q [Hs Hi]]] Hmin] [[p' [q' [Hs' Hj]]] Hmin'].
  specialize (Hmin _ _ Hs'). specialize (Hmin' _ _ Hs). lia.
Qed.

Lemma FirstAt_Substring (x s : string) (i : nat) :
  FirstAt x s i -> Substring x s.
Proof. intros [[p [q [Hs _]]] _]. now exists p, q. Qed.

Lemma FirstAt_bound (x s : string) (i : nat) :
  FirstAt x s i -> i + String.length x <= String.length s.
Proof.
  intros [[p [q [-> Hi]]] _]. rewrite !append_length. lia.
Qed.

Lemma find_from_spec (x s : string) (k : Z) :
  (str_in x s = true ->
   exists i, find_from x s k = (k + Z.of_nat i)%Z /\ FirstAt x s i) /\
  (str_in x s = false -> find_from x s k = (-1)%Z).
Proof.
  revert k; induction s as [|c s IH]; intros k.
  - simpl. rewrite orb_false_r. destruct (startswith x "") eqn:E.
    + split; [intros _ | discriminate]. exists 0. split; [lia|].
      apply startswith_spec in E as [t Ht]. split; [|intros; lia].
      exists "", t. now split.
    + split; [discriminate | reflexivity].
  - cbn [str_in find_from]. destruct (startswith x (String c s)) eqn:E.
    + split; [intros _ | discriminate]. exists 0. split; [lia|].
      apply startswith_spec in E as [t Ht]. split; [|intros; lia].
      exists "", t. now split.
    + simpl. destruct (IH (k + 1)%Z) as [Hyes Hno]. split; [|exact Hno].
      intros Hin. destruct (Hyes Hin) as [i [Hf [[p [q [Hs Hi]]] Hmin]]].
      exists (S i). split; [lia|]. split.
      * exists (String c p), q. simpl. rewrite Hs, Hi. now split.
      * intros p' q' Hs'. destruct p' as [|c' p'].
        -- assert (startswith x (String c s) = true)
             by (apply startswith_spec; now exists q').
           congruence.
        -- simpl in Hs'. injection Hs' as _ Hs'.
           specialize (Hmin _ _ Hs'). simpl. lia.
Qed.

Lemma find_present (x s : string) :
  str_in x s = true ->
  exists i, find s x = Z.of_nat i /\ FirstAt x s i.
Proof.
  intros Hin. destruct (find_from_spec x s 0) as [Hyes _].
  destruct (Hyes Hin) as [i [Hf Hfirst]]. exists i. now split.
Qed.

Lemma find_absent (x s : string) : str_in x s = false -> find s x = (-1)%Z.
Proof. intros Hin. now apply (find_from_spec x s 0). Qed.

Lemma substring_clip (s : string) (n m : nat) :
  substring n m s = substring n (Nat.min m (String.length s - n)) s.
Proof.
  revert n m; induction s as [|c s IH]; intros n m.
  - destruct n, m; reflexivity.
  - destruct n as [|n].
    + destruct m as [|m]; [reflexivity|]. simpl. f_equal.
      rewrite (IH 0 m). now rewrite Nat.sub_0_r.
    + simpl. apply IH.
Qed.

Lemma slice_window (s : string) (i w : nat) :
  i <= String.length s ->
  slice s (Z.of_nat i) (Z.of_nat i + Z.of_nat w) = substring i w s.
Proof.
  intros Hi. unfold slice, slice_bound, len.
  destruct (Z.of_nat i <? 0)%Z eqn:E1; [apply Z.ltb_lt in E1; lia|].
  destruct (Z.of_nat i + Z.of_nat w <? 0)%Z eqn:E2; [apply Z.ltb_lt in E2; lia|].
  rewrite (substring_clip s i w).
  f_equal; lia.
Qed.

End StringFacts.

(** ** Quotients of integers in binary64 *)

Section Binary64Quotient.

Import Binary64.

Lemma digits2_pos_lower (p : positive) :
  2 ^ (Z.pos (digits2_pos p) - 1) <= Z.pos p.
Proof.
  induction p as [p IH | p IH |]; cbn [digits2_pos].
  - rewrite Pos2Z.inj_succ.
    replace (Z.succ (Z.pos (digits2_pos p)) - 1)
      with (Z.succ (Z.pos (digits2_pos p) - 1)) by lia.
    rewrite Z.pow_succ_r by lia. lia.
  - rewrite Pos2Z.inj_succ.
    replace (Z.succ (Z.pos (digits2_pos p)) - 1)
      with (Z.succ (Z.pos (digits2_pos p) - 1)) by lia.
    rewrite Z.pow_succ_r by lia. lia.
  - reflexivity.
Qed.

Lemma Zdigits2_bound (m k : Z) :
  0 <= k -> 0 <= m <= 2 ^ k -> Zdigits2 m <= k + 1.
Proof.
  intros Hk [Hm0 Hm]. destruct m as [|p|p]; [simpl; lia | | lia].
  cbn [Zdigits2]. pose proof (digits2_pos_lower p) as Hlow.
  assert (Hpow : 2 ^ (Z.pos (digits2_pos p) - 1) <= 2 ^ k) by lia.
  apply Z.pow_le_mono_r_iff in Hpow; lia.
Qed.

Lemma fexp_small (x : Z) : x <= 1 -> fexp prec emax x <= 0.
Proof. unfold fexp, emin, prec, emax. lia. Qed.

Lemma iter_pos_steps {A : Type} (f : A -> A) (P : nat -> A -> Prop) :
  (forall n x, P n x -> P (S n) (f x)) ->
  forall p n x, P n x -> P (n + Pos.to_nat p)%nat (iter_pos f p x).
Proof.
  intros Hstep. induction p as [p IH | p IH |]; intros n x Hx; cbn [iter_pos].
  - rewrite Pos2Nat.inj_xI.
    replace (n + S (2 * Pos.to_nat p))%nat
      with (S n + Pos.to_nat p + Pos.to_nat p)%nat by lia.
    apply IH, IH, Hstep, Hx.
  - rewrite Pos2Nat.inj_xO.
    replace (n + 2 * Pos.to_nat p)%nat
      with (n + Pos.to_nat p + Pos.to_nat p)%nat by lia.
    apply IH, IH, Hx.
  - rewrite Pos2Nat.inj_1, Nat.add_1_r. apply Hstep, Hx.
Qed.

Lemma Below_shr_1 (N D : Z) (j : nat) (mrs : shr_record) :
  0 < D -> Below N D j mrs -> Below N D (S j) (shr_1 mrs).
Proof.
  intros HD [Hm [Hle Hlt]]. unfold Below.
  rewrite Nat2Z.inj_succ, Z.pow_succ_r by lia.
  assert (HX : 0 < 2 ^ Z.of_nat j * D) by (apply Z.mul_pos_pos; lia).
  destruct mrs as [m r s]. cbn [shr_m shr_r shr_s] in *.
  destruct m as [|[p|p|]|p]; cbn [shr_1 shr_m shr_r shr_s]; try lia;
    (split; [lia|]; split;
     [nia
     | intros Hb; try (rewrite orb_false_l in Hb; specialize (Hlt Hb)); nia]).
Qed.

Lemma shr_Below (N D : Z) (mrs : shr_record) (e n : Z) :
  0 < D -> Below N D 0 mrs ->
  exists j, snd (shr mrs e n) = e + Z.of_nat j /\
            Below N D j (fst (shr mrs e n)) /\
            (snd (shr mrs e n) = e \/ snd (shr mrs e n) = e + n).
Proof.
  intros HD Hb. destruct n as [|p|p]; cbn [shr fst snd].
  - exists 0%nat. repeat split; try apply Hb; lia.
  - exists (Pos.to_nat p). rewrite positive_nat_Z. split; [reflexivity|].
    split; [|now right].
    apply (iter_pos_steps shr_1 (Below N D)
             (fun n x => Below_shr_1 N D n x HD) p 0%nat mrs Hb).
  - exists 0%nat. repeat split; try apply Hb; lia.
Qed.

Lemma pow2_pos (k : Z) : 0 <= k -> 0 < 2 ^ k.
Proof. intros Hk. apply Z.pow_pos_nonneg; lia. Qed.

Lemma shr_fexp_Below (N D m e : Z) (loc : location) :
  0 < D -> e <= 0 -> 0 <= m -> m * D <= N ->
  (loc <> loc_Exact -> m * D < N) -> N <= D * 2 ^ (- e) ->
  exists j, snd (shr_fexp prec emax m e loc) = e + Z.of_nat j /\
            snd (shr_fexp prec emax m e loc) <= 0 /\
            Below N D j (fst (shr_fexp prec emax m e loc)).
Proof.
  intros HD He Hm Hle Hlt HN. unfold shr_fexp.
  assert (Hb : Below N D 0 (shr_record_of_loc m loc)).
  { unfold Below. cbn [Z.of_nat]. rewrite Z.pow_0_r, Z.mul_1_r.
    destruct loc as [|[| |]]; cbn [shr_record_of_loc shr_m shr_r shr_s orb];
      (split; [assumption|]; split; [assumption|]);
      intros Hbit; try discriminate; apply Hlt; discriminate. }
  destruct (shr_Below N D (shr_record_of_loc m loc) e
              (fexp prec emax (Zdigits2 m + e) - e) HD Hb)
    as [j [Hj [Hbelow Hcase]]].
  exists j. split; [assumption|]. split; [|assumption].
  destruct Hcase as [-> | ->]; [assumption|].
  replace (e + (fexp prec emax (Zdigits2 m + e) - e))
    with (fexp prec emax (Zdigits2 m + e)) by lia.
  apply fexp_small.
  pose proof (pow2_pos (- e) ltac:(lia)) as Hp.
  assert (Hm2 : m <= 2 ^ (- e)) by nia.
  pose proof (Zdigits2_bound m (- e) ltac:(lia) (conj Hm Hm2)). lia.
Qed.

Lemma Below_unit (N D e m : Z) (j : nat) (mrs : shr_record) :
  0 < D -> N <= D * 2 ^ (- e) -> e + Z.of_nat j <= 0 ->
  Below N D j mrs ->
  shr_m mrs <= 2 ^ (- (e + Z.of_nat j)) /\
  (shr_r mrs || shr_s mrs = true -> shr_m mrs < 2 ^ (- (e + Z.of_nat j))).
Proof.
  intros HD HN He [Hm [Hle Hlt]].
  assert (Hsplit : 2 ^ (- e) = 2 ^ Z.of_nat j * 2 ^ (- (e + Z.of_nat j))).
  { rewrite <- Z.pow_add_r by lia. f_equal. lia. }
  pose proof (pow2_pos (Z.of_nat j) ltac:(lia)) as HA.
  pose proof (pow2_pos (- (e + Z.of_nat j)) ltac:(lia)) as HB.
  rewrite Hsplit in HN.
  set (A := 2 ^ Z.of_nat j) in *. set (B := 2 ^ (- (e + Z.of_nat j))) in *.
  assert (HAD : 0 < A * D) by (apply Z.mul_pos_pos; assumption).
  split.
  - apply (Z.mul_le_mono_pos_r _ _ (A * D) HAD). nia.
  - intros Hbit. specialize (Hlt Hbit).
    apply (Z.mul_lt_mono_pos_r (A * D) _ _ HAD). nia.
Qed.

Lemma round_nearest_even_unit (mrs : shr_record) (B : Z) :
  0 <= shr_m mrs -> shr_m mrs <= B ->
  (shr_r mrs || shr_s mrs = true -> shr_m mrs < B) ->
  0 <= round_nearest_even (shr_m mrs) (loc_of_shr_record mrs) <= B.
Proof.
  destruct mrs as [m [|] [|]];
    cbn [shr_m shr_r shr_s loc_of_shr_record round_nearest_even orb];
    intros Hm Hle Hlt; try specialize (Hlt eq_refl); try lia.
  destruct (Z.even m); lia.
Qed.

Lemma binary_round_aux_unit (N D m e : Z) (loc : location) :
  0 < D -> e <= 0 -> 0 <= m -> m * D <= N ->
  (loc <> loc_Exact -> m * D < N) -> N <= D * 2 ^ (- e) ->
  b64_int_leb 0 (binary_round_aux prec emax false m e loc) = true /\
  b64_int_geb 1 (binary_round_aux prec emax false m e loc) = true.
Proof.
  intros HD He Hm Hle Hlt HN. unfold binary_round_aux.
  destruct (shr_fexp_Below N D m e loc HD He Hm Hle Hlt HN)
    as [j1 [He1 [He1le Hb1]]].
  destruct (shr_fexp prec emax m e loc) as [mrs1 e1].
  cbn [fst snd] in *.
  subst e1.
  destruct (Below_unit N D e m j1 mrs1 HD HN He1le Hb1) as [Hu1 Hu1'].
  pose proof (round_nearest_even_unit mrs1 _ (proj1 Hb1) Hu1 Hu1') as [Hr0 Hr1].
  set (m1 := round_nearest_even (shr_m mrs1) (loc_of_shr_record mrs1)) in *.
  set (e1 := e + Z.of_nat j1) in *.
  assert (Hstep2 := shr_fexp_Below (2 ^ (- e1)) 1 m1 e1 loc_Exact
                      ltac:(lia) He1le Hr0 ltac:(lia)
                      ltac:(intros Hne; now destruct Hne) ltac:(lia)).
  destruct Hstep2 as [j2 [He2 [He2le Hb2]]].
  destruct (shr_fexp prec emax m1 e1 loc_Exact) as [mrs2 e2].
  cbn [fst snd] in *. subst e2.
  destruct (Below_unit (2 ^ (- e1)) 1 e1 m1 j2 mrs2 ltac:(lia) ltac:(lia)
              He2le Hb2) as [Hu2 _].
  destruct Hb2 as [Hm2 _].
  set (e2 := e1 + Z.of_nat j2) in *.
  destruct (shr_m mrs2) as [|p|p]; [split; reflexivity | | lia].
  assert (Hfit : (e2 <=? emax - prec) = true)
    by (apply Z.leb_le; unfold emax, prec; lia).
  rewrite Hfit. cbn [b64_int_leb b64_int_geb cond_Zopp].
  pose proof (pow2_pos (- e2) ltac:(lia)) as Hp.
  destruct (0 <=? e2) eqn:E.
  - apply Z.leb_le in E. assert (e2 = 0) as Hz by lia.
    rewrite Hz in *. cbn in Hu2. split; apply Z.leb_le; cbn; lia.
  - split; apply Z.leb_le; lia.
Qed.

Lemma b64_int_div_unit (c t : Z) :
  0 <= c <= t -> 0 < t ->
  b64_int_leb 0 (b64_int_div c t) = true /\
  b64_int_geb 1 (b64_int_div c t) = true.
Proof.
  intros [Hc Hct] Ht. unfold b64_int_div.
  destruct t as [|my|my]; try lia.
  destruct c as [|mx|mx]; [split; reflexivity | | lia].
  cbn [b64_raw SFdiv xorb]. unfold SFdiv_core_binary.
  set (e0 := Z.min
               (fexp prec emax
                  (Zdigits2 (Z.pos mx) + 0 - (Zdigits2 (Z.pos my) + 0)))
               (0 - 0)).
  assert (He0 : e0 <= 0) by (subst e0; lia).
  set (m' := match 0 - 0 - e0 with
             | 0 => Z.pos mx
             | Z.pos _ => Z.shiftl (Z.pos mx) (0 - 0 - e0)
             | Z.neg _ => 0
             end).
  assert (Hm' : m' = Z.pos mx * 2 ^ (- e0)).
  { subst m'. replace (0 - 0 - e0) with (- e0) by lia.
    destruct (- e0) as [|p|p] eqn:E; try lia.
    apply Z.shiftl_mul_pow2. lia. }
  pose proof (pow2_pos (- e0) ltac:(lia)) as Hp.
  pose proof (Z_div_mod m' (Z.pos my) ltac:(lia)) as Hdiv.
  destruct (Z.div_eucl m' (Z.pos my)) as [q r]. destruct Hdiv as [Hq Hr].
  apply (binary_round_aux_unit m' (Z.pos my)); try lia.
  - nia.
  - intros Hloc. assert (r <> 0); [|lia].
    intros ->. apply Hloc.
    unfold new_location, new_location_even, new_location_odd.
    destruct (Z.even (Z.pos my)); reflexivity.
  - rewrite Hm'. nia.
Qed.

End Binary64Quotient.

(** ** Sign and validity of differences and quotients in binary64 *)

Section Binary64Sign.

Import Binary64.

Lemma iter_xO_value (m d : positive) :
  Z.pos (Pos.iter xO m d) = Z.pos m * 2 ^ Z.pos d.
Proof.
  revert m. induction d using Pos.peano_ind; intros m.
  - simpl. lia.
  - rewrite Pos.iter_succ, Pos2Z.inj_succ, Z.pow_succ_r by lia.
    rewrite Pos2Z.inj_xO, IHd. lia.
Qed.

Lemma shl_align_value (m : positive) (e e' : Z) :
  snd (shl_align m e e') = Z.min e e' /\
  Z.pos (fst (shl_align m e e')) = Z.pos m * 2 ^ (e - Z.min e e').
Proof.
  unfold shl_align. destruct (e' - e) as [|d|d] eqn:E; cbn [fst snd].
  - split; [lia|]. replace (e - Z.min e e') with 0 by lia. lia.
  - split; [lia|]. replace (e - Z.min e e') with 0 by lia. lia.
  - split; [lia|]. rewrite iter_xO_value. f_equal. f_equal. lia.
Qed.

Lemma digits2_pos_upper (p : positive) :
  Z.pos p < 2 ^ Z.pos (digits2_pos p).
Proof.
  induction p as [p IH | p IH |]; cbn [digits2_pos].
  - rewrite Pos2Z.inj_succ, Z.pow_succ_r by lia. lia.
  - rewrite Pos2Z.inj_succ, Z.pow_succ_r by lia. lia.
  - reflexivity.
Qed.

Lemma Zdigits2_lower (m k : Z) :
  0 <= k -> 2 ^ k <= m -> k + 1 <= Zdigits2 m.
Proof.
  intros Hk Hm. pose proof (pow2_pos k Hk) as Hpos.
  destruct m as [|p|p]; try lia.
  cbn [Zdigits2]. pose proof (digits2_pos_upper p) as Hup.
  assert (Hpow : 2 ^ k < 2 ^ Z.pos (digits2_pos p)) by lia.
  apply Z.pow_lt_mono_r_iff in Hpow; lia.
Qed.

Lemma Zdigits2_mono (a b : Z) : 0 < a <= b -> Zdigits2 a <= Zdigits2 b.
Proof.
  intros [Ha Hab]. destruct a as [|p|p]; try lia.
  pose proof (digits2_pos_lower p) as Hlow.
  pose proof (Zdigits2_lower b (Z.pos (digits2_pos p) - 1) ltac:(lia) ltac:(lia)).
  cbn [Zdigits2]. lia.
Qed.

Lemma Digits_shr_1 (d : Z) (j : nat) (mrs : shr_record) :
  Digits d j mrs -> Digits d (S j) (shr_1 mrs).
Proof.
  unfold Digits. intros [Hlt Hge]. rewrite Nat2Z.inj_succ.
  destruct mrs as [m r s]. cbn [shr_m] in *.
  destruct (Z.ltb_spec (Z.of_nat j) d) as [Hj | Hj].
  - destruct (Hlt Hj) as [Hm Hd]. clear Hlt Hge.
    destruct m as [|[p|p|]|p]; cbn [shr_1 shr_m Zdigits2 digits2_pos] in *;
      try lia; try rewrite Pos2Z.inj_succ in Hd; split; intros; lia.
  - rewrite (Hge Hj). cbn [shr_1 shr_m]. split; intros; lia.
Qed.

Lemma shr_record_of_loc_m (m : Z) (l : location) :
  shr_m (shr_record_of_loc m l) = m.
Proof. destruct l as [|[]]; reflexivity. Qed.

Lemma Digits_shr (m e n : Z) (l : location) :
  0 <= m -> 0 <= n ->
  snd (shr (shr_record_of_loc m l) e n) = e + n /\
  (n < Zdigits2 m ->
   0 < shr_m (fst (shr (shr_record_of_loc m l) e n)) /\
   Zdigits2 (shr_m (fst (shr (shr_record_of_loc m l) e n))) = Zdigits2 m - n) /\
  (Zdigits2 m <= n -> shr_m (fst (shr (shr_record_of_loc m l) e n)) = 0).
Proof.
  intros Hm Hn.
  assert (Hd0 : 0 <= Zdigits2 m) by (destruct m; cbn [Zdigits2]; lia).
  assert (Hz : Zdigits2 m <= 0 -> m = 0) by (destruct m; cbn [Zdigits2]; lia).
  destruct n as [|p|p]; cbn [shr fst snd]; rewrite ?shr_record_of_loc_m;
    try lia.
  - split; [lia|]. split; [|lia].
    intros Hlt. split; [|lia]. destruct m; cbn [Zdigits2] in *; lia.
  - split; [reflexivity|].
    assert (H0 : Digits (Zdigits2 m) 0 (shr_record_of_loc m l)).
    { unfold Digits. rewrite shr_record_of_loc_m. cbn [Z.of_nat].
      split; [intros Hlt; split; [destruct m; cbn [Zdigits2] in *|]; lia | lia]. }
    pose proof (iter_pos_steps shr_1 (Digits (Zdigits2 m))
                  (Digits_shr_1 (Zdigits2 m)) p 0%nat _ H0) as Hd.
    cbn [Nat.add] in Hd. unfold Digits in Hd. rewrite positive_nat_Z in Hd.
    destruct Hd as [Hlt Hge]. split; [intros H; apply Hlt; lia | assumption].
Qed.

(** Shifting a mantissa into the format loses no magnitude. *)
Lemma shr_fexp_digits (m e : Z) (l : location) :
  0 < m -> emin prec emax < Zdigits2 m + e ->
  0 < shr_m (fst (shr_fexp prec emax m e l)) /\
  Zdigits2 (shr_m (fst (shr_fexp prec emax m e l))) +
    snd (shr_fexp prec emax m e l) = Zdigits2 m + e.
Proof.
  intros Hm He. unfold shr_fexp.
  set (n := fexp prec emax (Zdigits2 m + e) - e).
  destruct (Z.ltb_spec n 0) as [Hn | Hn].
  - destruct n as [|p|p]; try lia. cbn [shr fst snd].
    rewrite shr_record_of_loc_m. split; [lia | reflexivity].
  - destruct (Digits_shr m e n l ltac:(lia) Hn) as [He' [Hlt _]].
    assert (Hnd : n < Zdigits2 m)
      by (unfold n, fexp, emin, prec, emax in *; lia).
    destruct (Hlt Hnd) as [Hpos Hdig]. split; [assumption | lia].
Qed.

(** Shifting a mantissa that is too long for its exponent makes it
    canonical. *)
Lemma shr_fexp_canonical (m e : Z) (l : location) :
  0 <= m -> e <= fexp prec emax (Zdigits2 m + e) ->
  snd (shr_fexp prec emax m e l) = fexp prec emax (Zdigits2 m + e) /\
  ((shr_m (fst (shr_fexp prec emax m e l)) = 0 /\
    snd (shr_fexp prec emax m e l) = emin prec emax) \/
   (0 < shr_m (fst (shr_fexp prec emax m e l)) /\
    Zdigits2 (shr_m (fst (shr_fexp prec emax m e l))) +
      snd (shr_fexp prec emax m e l) = Zdigits2 m + e)).
Proof.
  intros Hm He. unfold shr_fexp.
  set (n := fexp prec emax (Zdigits2 m + e) - e).
  destruct (Digits_shr m e n l Hm ltac:(lia)) as [He' [Hlt Hge]].
  split; [lia|].
  destruct (Z.ltb_spec n (Zdigits2 m)) as [Hn | Hn].
  - right. destruct (Hlt Hn) as [Hpos Hdig]. split; [assumption | lia].
  - left. split; [now apply Hge|].
    unfold n, fexp, emin, prec, emax in *. lia.
Qed.

Lemma round_nearest_even_ge (m : Z) (l : location) :
  m <= round_nearest_even m l.
Proof.
  destruct l as [|[]]; cbn [round_nearest_even]; try lia.
  destruct (Z.even m); lia.
Qed.

Lemma Magnitude_weaken (s : bool) (k k' : Z) (x : spec_float) :
  k' <= k -> Magnitude s k x -> Magnitude s k' x.
Proof.
  intros Hk. destruct x as [| | |s' m e]; cbn [Magnitude]; try tauto.
  intros [-> Hm]. split; [reflexivity | lia].
Qed.

(** Rounding a positive mantissa that lies above the subnormal floor
    gives a double of the same sign and at least the same magnitude:
    neither a zero nor a NaN. *)
Lemma binary_round_aux_magnitude (s : bool) (m e : Z) (l : location) :
  0 < m -> emin prec emax < Zdigits2 m + e ->
  Magnitude s (Zdigits2 m + e) (binary_round_aux prec emax s m e l).
Proof.
  intros Hm He. unfold binary_round_aux.
  destruct (shr_fexp_digits m e l Hm He) as [Hm1 Hd1].
  destruct (shr_fexp prec emax m e l) as [mrs1 e1]. cbn [fst snd] in *.
  pose proof (round_nearest_even_ge (shr_m mrs1) (loc_of_shr_record mrs1)) as Hr.
  set (m2 := round_nearest_even (shr_m mrs1) (loc_of_shr_record mrs1)) in *.
  pose proof (Zdigits2_mono (shr_m mrs1) m2 ltac:(lia)) as Hmono.
  destruct (shr_fexp_digits m2 e1 loc_Exact ltac:(lia) ltac:(lia)) as [Hm3 Hd3].
  destruct (shr_fexp prec emax m2 e1 loc_Exact) as [mrs3 e3]. cbn [fst snd] in *.
  destruct (shr_m mrs3) as [|p|p]; try lia.
  destruct (e3 <=? emax - prec); cbn [Magnitude Zdigits2] in *;
    [split; [reflexivity | lia] | reflexivity].
Qed.

Lemma iter_xO_digits (m d : positive) :
  Z.pos (digits2_pos (Pos.iter xO m d)) = Z.pos (digits2_pos m) + Z.pos d.
Proof.
  induction d using Pos.peano_ind.
  - cbn [Pos.iter digits2_pos]. lia.
  - rewrite Pos.iter_succ. cbn [digits2_pos]. lia.
Qed.

Lemma binary_round_magnitude (s : bool) (p : positive) (e : Z) :
  emin prec emax < Z.pos (digits2_pos p) + e ->
  Magnitude s (Z.pos (digits2_pos p) + e) (binary_round prec emax s p e).
Proof.
  intros He. unfold binary_round.
  assert (Hd : Zdigits2 (Z.pos (fst (shl_align p e
                  (fexp prec emax (Z.pos (digits2_pos p) + e))))) +
               snd (shl_align p e (fexp prec emax (Z.pos (digits2_pos p) + e)))
               = Z.pos (digits2_pos p) + e).
  { unfold shl_align.
    destruct (fexp prec emax (Z.pos (digits2_pos p) + e) - e) as [|d|d] eqn:E;
      cbn [fst snd Zdigits2]; try reflexivity.
    rewrite iter_xO_digits. lia. }
  destruct (shl_align p e (fexp prec emax (Z.pos (digits2_pos p) + e)))
    as [mz ez]. cbn [fst snd] in Hd.
  rewrite <- Hd. apply binary_round_aux_magnitude; [lia|].
  rewrite Hd. assumption.
Qed.

(** What validity says of a finite double. *)
Lemma valid_finite (s : bool) (m : positive) (e : Z) :
  valid_binary prec emax (S754_finite s m e) = true ->
  emin prec emax <= e /\ Z.pos (digits2_pos m) <= 53 /\
  (emin prec emax < e -> Z.pos (digits2_pos m) = 53).
Proof.
  cbn [valid_binary]. unfold bounded, canonical_mantissa.
  intros H. apply andb_true_iff in H as [H _]. apply Z.eqb_eq in H.
  unfold fexp, emin, prec, emax in *. lia.
Qed.

(** Between two valid positive doubles the order of the floats is the
    order of the values. *)
Lemma SFltb_value (mb mv : positive) (eb ev : Z) :
  valid_binary prec emax (S754_finite false mb eb) = true ->
  valid_binary prec emax (S754_finite false mv ev) = true ->
  SFltb (S754_finite false mb eb) (S754_finite false mv ev) = true ->
  eb <= ev /\ Z.pos mb < Z.pos mv * 2 ^ (ev - eb).
Proof.
  intros Hb Hv. unfold SFltb, SFcompare.
  destruct (valid_finite _ _ _ Hb) as [Hb1 [Hb2 _]].
  destruct (valid_finite _ _ _ Hv) as [_ [_ Hv3]].
  destruct (eb ?= ev) eqn:E.
  - apply Z.compare_eq in E. subst ev.
    change (Pos.compare_cont Eq mb mv) with (Pos.compare mb mv).
    destruct (Pos.compare mb mv) eqn:Em; try discriminate. intros _.
    pose proof (Pos2Z.pos_lt_pos mb mv Em). rewrite Z.sub_diag, Z.pow_0_r. lia.
  - intros _. assert (E' : eb < ev) by exact E. split; [lia|].
    pose proof (digits2_pos_upper mb) as Hup.
    pose proof (digits2_pos_lower mv) as Hlow.
    rewrite (Hv3 ltac:(lia)) in Hlow.
    assert (H1 : 2 ^ Z.pos (digits2_pos mb) <= 2 ^ 53)
      by (apply Z.pow_le_mono_r; lia).
    assert (H2 : 2 ^ 1 <= 2 ^ (ev - eb)) by (apply Z.pow_le_mono_r; lia).
    change (2 ^ 53) with (2 ^ (53 - 1) * 2 ^ 1) in H1.
    pose proof (pow2_pos (53 - 1) ltac:(lia)). nia.
  - discriminate.
Qed.

(** A valid double less a larger one is negative, and no smaller in
    magnitude than one unit of the last place of the first. *)
Lemma SFsub_magnitude (mb mv : positive) (eb ev : Z) :
  valid_binary prec emax (S754_finite false mb eb) = true ->
  valid_binary prec emax (S754_finite false mv ev) = true ->
  SFltb (S754_finite false mb eb) (S754_finite false mv ev) = true ->
  Magnitude true (eb + 1)
    (SFsub prec emax (S754_finite false mb eb) (S754_finite false mv ev)).
Proof.
  intros Hb Hv Hlt.
  destruct (SFltb_value _ _ _ _ Hb Hv Hlt) as [He Hm].
  destruct (valid_finite _ _ _ Hb) as [Hb1 _].
  cbn [SFsub cond_Zopp].
  destruct (shl_align_value mb eb (Z.min eb ev)) as [_ Hvb].
  destruct (shl_align_value mv ev (Z.min eb ev)) as [_ Hvv].
  replace (eb - Z.min eb (Z.min eb ev)) with 0 in Hvb by lia.
  replace (ev - Z.min ev (Z.min eb ev)) with (ev - eb) in Hvv by lia.
  rewrite Hvb, Hvv, Z.pow_0_r, Z.mul_1_r.
  replace (Z.min eb ev) with eb by lia.
  destruct (Z.pos mb - Z.pos mv * 2 ^ (ev - eb)) as [|p|p] eqn:En; try lia.
  cbn [binary_normalize].
  apply (Magnitude_weaken true (Z.pos (digits2_pos p) + eb)); [lia|].
  apply binary_round_magnitude. lia.
Qed.

(** Rounding gives a valid double when the exponent it starts from is
    not above the canonical one. *)
Lemma binary_round_aux_valid (s : bool) (m e : Z) (l : location) :
  0 <= m -> e <= fexp prec emax (Zdigits2 m + e) ->
  valid_binary prec emax (binary_round_aux prec emax s m e l) = true.
Proof.
  intros Hm He. unfold binary_round_aux.
  destruct (shr_fexp_canonical m e l Hm He) as [He1 Hc1].
  destruct (shr_fexp prec emax m e l) as [mrs1 e1]. cbn [fst snd] in *.
  pose proof (round_nearest_even_ge (shr_m mrs1) (loc_of_shr_record mrs1)) as Hr.
  set (m2 := round_nearest_even (shr_m mrs1) (loc_of_shr_record mrs1)) in *.
  assert (Hm2 : 0 <= m2) by (destruct Hc1 as [[H0 _] | [H0 _]]; lia).
  assert (He2 : e1 <= fexp prec emax (Zdigits2 m2 + e1)).
  { destruct Hc1 as [[_ Hmin] | [Hpos Hdig]].
    - unfold fexp, emin, prec, emax in *. lia.
    - pose proof (Zdigits2_mono (shr_m mrs1) m2 ltac:(lia)).
      unfold fexp, emin, prec, emax in *. lia. }
  destruct (shr_fexp_canonical m2 e1 loc_Exact Hm2 He2) as [He3 Hc3].
  destruct (shr_fexp prec emax m2 e1 loc_Exact) as [mrs3 e3]. cbn [fst snd] in *.
  destruct (shr_m mrs3) as [|p|p]; try reflexivity.
  destruct (e3 <=? emax - prec) eqn:Efit; [|reflexivity].
  cbn [valid_binary]. unfold bounded, canonical_mantissa.
  rewrite Efit, andb_true_r. apply Z.eqb_eq.
  destruct Hc3 as [[H0 _] | [_ Hdig]]; [discriminate|].
  cbn [Zdigits2] in Hdig. rewrite Hdig. lia.
Qed.

(** The quotient of two mantissas has the magnitude of the exact
    quotient, wherever that lies above the subnormal floor. *)
Lemma SFdiv_core_lower (m1 m2 : positive) (e1 e2 : Z) :
  let D := Z.pos (digits2_pos m1) + e1 - (Z.pos (digits2_pos m2) + e2) in
  0 <= fst (fst (SFdiv_core_binary prec emax (Z.pos m1) e1 (Z.pos m2) e2)) /\
  snd (fst (SFdiv_core_binary prec emax (Z.pos m1) e1 (Z.pos m2) e2))
    <= fexp prec emax D /\
  (emin prec emax < D - 53 ->
   0 < fst (fst (SFdiv_core_binary prec emax (Z.pos m1) e1 (Z.pos m2) e2)) /\
   D <= Zdigits2 (fst (fst (SFdiv_core_binary prec emax
                              (Z.pos m1) e1 (Z.pos m2) e2))) +
        snd (fst (SFdiv_core_binary prec emax (Z.pos m1) e1 (Z.pos m2) e2))).
Proof.
  intros D. unfold SFdiv_core_binary. cbn [Zdigits2].
  set (d1 := Z.pos (digits2_pos m1)) in *.
  set (d2 := Z.pos (digits2_pos m2)) in *.
  fold D.
  set (e' := Z.min (fexp prec emax D) (e1 - e2)).
  set (s := e1 - e2 - e').
  assert (Hs : 0 <= s) by (unfold s, e'; lia).
  set (m' := match s with
             | 0 => Z.pos m1
             | Z.pos _ => Z.shiftl (Z.pos m1) s
             | Z.neg _ => 0
             end).
  assert (Hm' : m' = Z.pos m1 * 2 ^ s).
  { unfold m'. destruct s as [|p|p]; [cbn; lia | | lia].
    apply Z.shiftl_mul_pow2. lia. }
  pose proof (pow2_pos s Hs) as Hps.
  pose proof (Z_div_mod m' (Z.pos m2) ltac:(lia)) as Hdiv.
  destruct (Z.div_eucl m' (Z.pos m2)) as [q r]. cbn [fst snd].
  destruct Hdiv as [Hq Hr].
  split; [nia|]. split; [unfold e'; lia|].
  intros HD.
  assert (Hk : 52 <= d1 - 1 + s - d2)
    by (unfold s, e', D, fexp, emin, prec, emax in *; lia).
  assert (Hlow : 2 ^ (d1 - 1 + s - d2) <= q).
  { pose proof (digits2_pos_lower m1) as Hl1. fold d1 in Hl1.
    pose proof (digits2_pos_upper m2) as Hu2. fold d2 in Hu2.
    assert (Hsplit : 2 ^ (d1 - 1) * 2 ^ s = 2 ^ (d1 - 1 + s - d2) * 2 ^ d2).
    { rewrite <- !Z.pow_add_r by (unfold d1, d2; lia). f_equal. lia. }
    pose proof (pow2_pos (d1 - 1) ltac:(unfold d1; lia)).
    pose proof (pow2_pos (d1 - 1 + s - d2) ltac:(lia)).
    pose proof (pow2_pos d2 ltac:(unfold d2; lia)).
    assert (Hbig : 2 ^ (d1 - 1 + s - d2) * 2 ^ d2 <= m') by nia.
    nia. }
  pose proof (Zdigits2_lower q (d1 - 1 + s - d2) ltac:(lia) Hlow) as Hdq.
  pose proof (pow2_pos (d1 - 1 + s - d2) ltac:(lia)) as Hqpos.
  split; [lia|]. unfold s, D in *. lia.
Qed.

(** A quotient of doubles is a valid double. *)
Lemma SFdiv_valid (x y : spec_float) :
  valid_binary prec emax (SFdiv prec emax x y) = true.
Proof.
  destruct x as [sx | sx | |sx mx ex], y as [sy | sy | |sy my ey];
    try reflexivity.
  cbn [SFdiv].
  pose proof (SFdiv_core_lower mx my ex ey) as Hcore. cbv zeta in Hcore.
  destruct (SFdiv_core_binary prec emax (Z.pos mx) ex (Z.pos my) ey)
    as [[q e'] l]. cbn [fst snd] in Hcore.
  destruct Hcore as [Hq [He Hlow]].
  apply binary_round_aux_valid; [assumption|].
  destruct (Z.ltb_spec (emin prec emax)
              (Z.pos (digits2_pos mx) + ex - (Z.pos (digits2_pos my) + ey) - 53))
    as [HD | HD].
  - destruct (Hlow HD) as [_ Hdig].
    unfold fexp, emin, prec, emax in *. lia.
  - unfold fexp, emin, prec, emax in *. lia.
Qed.

(** Dividing a negative double by a positive one that is not much
    larger gives a negative double: the quotient does not vanish. *)
Lemma SFdiv_magnitude (x : spec_float) (mb : positive) (eb : Z) :
  Z.pos (digits2_pos mb) <= 53 ->
  Magnitude true (eb + 1) x ->
  Magnitude true (- 52) (SFdiv prec emax x (S754_finite false mb eb)).
Proof.
  intros Hdb Hx. destruct x as [| s | |s m1 e1]; cbn [Magnitude] in Hx;
    try contradiction.
  - subst s. reflexivity.
  - destruct Hx as [-> Hx]. cbn [SFdiv xorb].
    pose proof (SFdiv_core_lower m1 mb e1 eb) as Hcore. cbv zeta in Hcore.
    destruct (SFdiv_core_binary prec emax (Z.pos m1) e1 (Z.pos mb) eb)
      as [[q e'] l]. cbn [fst snd] in Hcore.
    destruct Hcore as [_ [_ Hlow]].
    destruct Hlow as [Hq Hdig]; [unfold emin, prec, emax; lia|].
    apply (Magnitude_weaken true (Zdigits2 q + e')); [lia|].
    apply binary_round_aux_magnitude; [assumption|].
    unfold emin, prec, emax. lia.
Qed.

(** In binary64 the quotient [(b - v) / b] of two valid doubles with
    [0 < b < v] is negative. *)
Lemma b64_drop_negative (b v : spec_float) :
  valid_binary prec emax b = true -> valid_binary prec emax v = true ->
  SFltb (S754_zero false) b = true -> SFltb b v = true ->
  SFltb (SFdiv prec emax (SFsub prec emax b v) b) (S754_zero false) = true.
Proof.
  intros Hb Hv Hpos Hlt.
  destruct b as [sb | sb | |sb mb eb]; try (destruct sb); try discriminate.
  - destruct v as [sv | sv | |sv mv ev]; try (destruct sv); discriminate.
  - destruct (valid_finite _ _ _ Hb) as [_ [Hdb _]].
    assert (Hsub : Magnitude true (eb + 1)
                     (SFsub prec emax (S754_finite false mb eb) v)).
    { destruct v as [sv | sv | |sv mv ev]; try (destruct sv); try discriminate.
      - reflexivity.
      - now apply SFsub_magnitude. }
    pose proof (SFdiv_magnitude _ mb eb Hdb Hsub) as Hdiv.
    destruct (SFdiv prec emax (SFsub prec emax (S754_finite false mb eb) v)
                (S754_finite false mb eb)) as [| s | |s m e];
      cbn [Magnitude] in Hdiv; try contradiction.
    + subst s. reflexivity.
    + destruct Hdiv as [-> _]. reflexivity.
Qed.


End Binary64Sign.

(** ** Logic-puzzle scorer *)

Section LogicScorer.

Lemma expected_pairs_step_app (e : string) (acc : list (string * string))
    (name : string) :
  expected_pairs_step e acc name = (acc ++ name_pair e name)%list.
Proof.
  unfold name_pair, expected_pairs_step.
  destruct (str_in name e); [|now rewrite app_nil_r].
  destruct (str_in "knight" (role_window e name)); [reflexivity|].
  destruct (str_in "knave" (role_window e name)); [reflexivity|].
  now rewrite app_nil_r.
Qed.

Lemma fold_expected_pairs (e : string) (l : list string)
    (acc : list (string * string)) :
  fold_left (expected_pairs_step e) l acc =
  (acc ++ flat_map (name_pair e) l)%list.
Proof.
  revert acc; induction l as [|name l IH]; intros acc; simpl.
  - now rewrite app_nil_r.
  - rewrite IH, expected_pairs_step_app. now rewrite <- app_assoc.
Qed.

Lemma extract_pairs_flat_map (e : string) :
  extract_pairs e = flat_map (name_pair e) names.
Proof. unfold extract_pairs. now rewrite fold_expected_pairs. Qed.

Lemma role_window_first (e name : string) (i : nat) :
  FirstAt name e i -> role_window e name = substring i 50 e.
Proof.
  intros Hfirst. unfold role_window.
  assert (Hin : str_in name e = true)
    by (apply str_in_spec; eapply FirstAt_Substring; eassumption).
  destruct (find_present _ _ Hin) as [j [Hj Hfirst']].
  assert (j = i) as -> by (eapply FirstAt_unique; eassumption).
  rewrite Hj. change 50 with (Z.of_nat 50).
  apply slice_window. pose proof (FirstAt_bound _ _ _ Hfirst). lia.
Qed.

Lemma in_name_pair (e name n r : string) :
  In (n, r) (name_pair e name) <->
  n = name /\
  exists i, FirstAt name e i /\
    ((r = "knight" /\ Substring "knight" (substring i 50 e)) \/
     (r = "knave" /\ Substring "knave" (substring i 50 e) /\
      ~ Substring "knight" (substring i 50 e))).
Proof.
  unfold name_pair, expected_pairs_step.
  destruct (str_in name e) eqn:Hin.
  - destruct (find_present _ _ Hin) as [i [_ Hfirst]].
    rewrite (role_window_first _ _ _ Hfirst).
    assert (Huniq : forall j, FirstAt name e j -> j = i)
      by (intros j Hj; eapply FirstAt_unique; eassumption).
    destruct (str_in "knight" (substring i 50 e)) eqn:Hk;
      [|destruct (str_in "knave" (substring i 50 e)) eqn:Hv].
    + apply str_in_spec in Hk. simpl. split.
      * intros [Heq | []]. injection Heq as <- <-. split; [reflexivity|].
        exists i. split; [assumption|]. left. now split.
      * intros [-> [j [Hj Hrole]]]. apply Huniq in Hj as ->.
        destruct Hrole as [[-> _] | [_ [_ Hno]]]; [now left | contradiction].
    + apply str_in_false in Hk. apply str_in_spec in Hv. simpl. split.
      * intros [Heq | []]. injection Heq as <- <-. split; [reflexivity|].
        exists i. split; [assumption|]. right. now repeat split.
      * intros [-> [j [Hj Hrole]]]. apply Huniq in Hj as ->.
        destruct Hrole as [[_ Hyes] | [-> _]]; [contradiction | now left].
    + apply str_in_false in Hk. apply str_in_false in Hv. simpl. split.
      * intros [].
      * intros [_ [j [Hj Hrole]]]. apply Huniq in Hj as ->.
        destruct Hrole as [[_ Hyes] | [_ [Hyes _]]]; contradiction.
  - simpl. split; [intros [] |].
    intros [_ [i [Hfirst _]]]. apply FirstAt_Substring in Hfirst.
    apply str_in_spec in Hfirst. congruence.
Qed.

Lemma in_extract_pairs (e name role : string) :
  In (name, role) (extract_pairs e) <-> Extracted e name role.
Proof.
  rewrite extract_pairs_flat_map, in_flat_map. unfold Extracted. split.
  - intros [x [Hx Hin]]. apply in_name_pair in Hin as [-> Hrest].
    now split.
  - intros [Hname Hrest]. exists name. split; [assumption|].
    apply in_name_pair. now split.
Qed.

Lemma name_pair_length (e name : string) :
  (List.length (name_pair e name) <= 1)%nat.
Proof.
  unfold name_pair, expected_pairs_step.
  destruct (str_in name e); [|simpl; lia].
  destruct (str_in "knight" (role_window e name)); [simpl; lia|].
  destruct (str_in "knave" (role_window e name)); simpl; lia.
Qed.

Lemma flat_map_length_le {A B : Type} (f : A -> list B) (l : list A) :
  (forall a, List.length (f a) <= 1)%nat ->
  (List.length (flat_map f l) <= List.length l)%nat.
Proof.
  intros Hf. induction l as [|a l IH]; simpl; [lia|].
  rewrite length_app. specialize (Hf a). lia.
Qed.

Lemma extract_pairs_length (e : string) :
  (List.length (extract_pairs e) <= 6)%nat.
Proof.
  rewrite extract_pairs_flat_map.
  apply (flat_map_length_le (name_pair e) names), name_pair_length.
Qed.

Lemma fold_count_matches (r : string) (pairs : list (string * string))
    (acc : Z) :
  fold_left
    (fun correct_matches p =>
       if pair_matches r p then correct_matches + 1 else correct_matches)
    pairs acc =
  acc + Z.of_nat (List.length (filter (pair_matches r) pairs)).
Proof.
  revert acc; induction pairs as [|p pairs IH]; intros acc; simpl; [lia|].
  rewrite IH. destruct (pair_matches r p); simpl; lia.
Qed.

Lemma count_matches_filter (r : string) (pairs : list (string * string)) :
  count_matches r pairs =
  Z.of_nat (List.length (filter (pair_matches r) pairs)).
Proof. unfold count_matches. now rewrite fold_count_matches. Qed.

Lemma pair_matches_spec (r : string) (p : string * string) :
  pair_matches r p = true <-> Substring (fst p) r /\ Substring (snd p) r.
Proof.
  unfold pair_matches. now rewrite andb_true_iff, !str_in_spec.
Qed.

(** The threshold [n * 0.8] in binary64, for the sizes that can occur:
    the rounding of the product never moves the comparison. *)
Lemma b64_threshold (n m : nat) :
  (n <= 6)%nat -> (m <= 6)%nat ->
  int_geb (F := spec_float) (Z.of_nat m)
    (fmul (of_int (Z.of_nat n)) (literal 8 10)) =
  (4 * Z.of_nat n <=? 5 * Z.of_nat m).
Proof.
  intros Hn Hm.
  do 7 (destruct n as [|n];
        [do 7 (destruct m as [|m]; [vm_compute; reflexivity|]); lia|]).
  lia.
Qed.

Lemma eight_tenths (n m : Z) :
  ((8 # 10) * inject_Z n <= inject_Z m)%Q <-> 4 * n <= 5 * m.
Proof. unfold Qle, Qmult, inject_Z; cbn [Qnum Qden]. lia. Qed.

Lemma check_logic_answer_threshold (response expected : string) :
  _check_logic_answer (F := spec_float) response expected = true <->
  4 * Z.of_nat (List.length (extract_pairs (lower expected))) <=
  5 * Z.of_nat (List.length
                  (filter (pair_matches (lower response))
                     (extract_pairs (lower expected)))).
Proof.
  unfold _check_logic_answer. rewrite count_matches_filter.
  pose proof (extract_pairs_length (lower expected)) as Hlen.
  pose proof (filter_length_le (pair_matches (lower response))
                (extract_pairs (lower expected))) as Hle.
  rewrite b64_threshold by lia. apply Z.leb_le.
Qed.

End LogicScorer.

Lemma zoey_oliver_pairs :
  extract_pairs (lower zoey_oliver) = [("zoey", "knight"); ("oliver", "knight")].
Proof. vm_compute. reflexivity. Qed.

Lemma zoey_first : FirstAt "zoey" (lower zoey_oliver) 0.
Proof.
  split; [|intros; apply Nat.le_0_l].
  exists "", " is a knave, oliver is a knight". split; reflexivity.
Qed.

(** C1.  The logic-puzzle scorer extracts, for each known participant
    name that occurs in the lowercased expected string, the role keyword
    found in the 50 characters starting at the name's first occurrence; a
    pair is satisfied when its name and its role keyword each occur
    somewhere in the lowercased response; and the scorer answers [true]
    exactly when the satisfied pairs are at least 0.8 times the extracted
    pairs (the product [n * 0.8] being computed in binary64).  For the
    expected answer "Zoey is a knave, Oliver is a knight", every response
    that contains "(1) Zoey is a knave\n(2) Oliver is a knight" is
    correct, and the response "Zoey is a knave" is not. *)
Theorem check_logic_answer_coverage :
  (forall expected name role,
      In (name, role) (extract_pairs (lower expected)) <->
      Extracted (lower expected) name role) /\
  (forall response p,
      pair_matches (lower response) p = true <->
      Substring (fst p) (lower response) /\ Substring (snd p) (lower response)) /\
  (forall response expected,
      _check_logic_answer (F := spec_float) response expected = true <->
      ((8 # 10) *
       inject_Z (Z.of_nat (List.length (extract_pairs (lower expected)))) <=
       inject_Z (Z.of_nat (List.length
                             (filter (pair_matches (lower response))
                                (extract_pairs (lower expected))))))%Q) /\
  (forall response,
      Substring zoey_oliver_response response ->
      _check_logic_answer (F := spec_float) response zoey_oliver = true) /\
  _check_logic_answer (F := spec_float) "Zoey is a knave" zoey_oliver = false.
Proof.
  split; [|split; [|split; [|split]]].
  - intros expected name role. apply in_extract_pairs.
  - intros response p. apply pair_matches_spec.
  - intros response expected.
    rewrite eight_tenths. apply check_logic_answer_threshold.
  - intros response Hsub.
    apply check_logic_answer_threshold. rewrite zoey_oliver_pairs.
    apply Substring_lower in Hsub.
    assert (Hocc : forall w, str_in w (lower zoey_oliver_response) = true ->
                             str_in w (lower response) = true).
    { intros w Hw. apply str_in_spec. apply str_in_spec in Hw.
      eapply Substring_trans; eassumption. }
    assert (Hzoey : pair_matches (lower response) ("zoey", "knight") = true).
    { unfold pair_matches. cbn [fst snd].
      rewrite !Hocc by (vm_compute; reflexivity). reflexivity. }
    assert (Holiver : pair_matches (lower response) ("oliver", "knight") = true).
    { unfold pair_matches. cbn [fst snd].
      rewrite !Hocc by (vm_compute; reflexivity). reflexivity. }
    cbn [filter]. rewrite Hzoey, Holiver. cbn [List.length]. lia.
  - vm_compute. reflexivity.
Qed.

Lemma check_logic_answer_coverage_witness :
  Substring zoey_oliver_response ("Answer: " ++ zoey_oliver_response ++ ".") /\
  _check_logic_answer (F := spec_float)
    ("Answer: " ++ zoey_oliver_response ++ ".") zoey_oliver = true.
Proof.
  assert (Hsub : Substring zoey_oliver_response
                   ("Answer: " ++ zoey_oliver_response ++ "."))
    by (exists "Answer: ", "."; reflexivity).
  split; [exact Hsub|].
  exact (proj1 (proj2 (proj2 (proj2 check_logic_answer_coverage))) _ Hsub).
Defined.

(** C7.  When nothing is extracted from the expected answer, the scorer
    answers [true] whatever the response is. *)
Theorem check_logic_answer_no_pairs (response expected : string) :
  extract_pairs (lower expected) = [] ->
  _check_logic_answer (F := spec_float) response expected = true.
Proof.
  intros Hnone. unfold _check_logic_answer. rewrite Hnone.
  vm_compute. reflexivity.
Qed.

Lemma check_logic_answer_no_pairs_witness :
  extract_pairs (lower "Nobody here is a knight") = [] /\
  _check_logic_answer (F := spec_float)
    "I cannot tell" "Nobody here is a knight" = true.
Proof.
  split; [reflexivity|].
  apply (check_logic_answer_no_pairs "I cannot tell" "Nobody here is a knight").
  reflexivity.
Defined.

(** C10.  ["knight"] is tested before ["knave"]: when both keywords occur
    in the 50 characters starting at a participant name's first
    occurrence, the pair extracted for that name is [(name, "knight")] and
    not [(name, "knave")].  For "Zoey is a knave, Oliver is a knight" the
    pair extracted for zoey is [("zoey", "knight")]. *)
Theorem knight_tested_before_knave :
  (forall expected name i,
      In name names ->
      FirstAt name (lower expected) i ->
      Substring "knight" (substring i 50 (lower expected)) ->
      Substring "knave" (substring i 50 (lower expected)) ->
      In (name, "knight") (extract_pairs (lower expected)) /\
      ~ In (name, "knave") (extract_pairs (lower expected))) /\
  (forall role,
      In ("zoey", role) (extract_pairs (lower zoey_oliver)) <-> role = "knight").
Proof.
  split.
  - intros expected name i Hname Hfirst Hknight Hknave. split.
    + apply in_extract_pairs. split; [assumption|].
      exists i. split; [assumption|]. left. now split.
    + intros Hin. apply in_extract_pairs in Hin as [_ [j [Hj Hrole]]].
      assert (j = i) as -> by (eapply FirstAt_unique; eassumption).
      destruct Hrole as [[Habs _] | [_ [_ Hno]]]; [discriminate | contradiction].
  - intros role. rewrite zoey_oliver_pairs. simpl. split.
    + intros [Heq | [Heq | []]]; [now injection Heq | discriminate].
    + intros ->. now left.
Qed.

Lemma knight_tested_before_knave_witness :
  In ("zoey", "knight") (extract_pairs (lower zoey_oliver)) /\
  ~ In ("zoey", "knave") (extract_pairs (lower zoey_oliver)).
Proof.
  apply (proj1 knight_tested_before_knave zoey_oliver "zoey" 0%nat).
  - left. reflexivity.
  - exact zoey_first.
  - apply str_in_spec. reflexivity.
  - apply str_in_spec. reflexivity.
Defined.

(** ** Arithmetic scorer *)

(** C2.  A response to an arithmetic problem counts as correct exactly
    when the lowercased string form of the expected answer occurs in the
    lowercased response.  With the expected answer 15 (as an [int] or as
    the string "15"), "Step by step: 7 + 8 = 15" is correct and "The
    answer is 42" is not. *)
Theorem answer_in_response_substring :
  (forall a response,
      answer_in_response a response = true <->
      Substring (lower (str a)) (lower response)) /\
  str (IntAnswer 15) = "15" /\
  answer_in_response (StrAnswer "15") "Step by step: 7 + 8 = 15" = true /\
  answer_in_response (IntAnswer 15) "Step by step: 7 + 8 = 15" = true /\
  answer_in_response (StrAnswer "15") "The answer is 42" = false /\
  answer_in_response (IntAnswer 15) "The answer is 42" = false.
Proof.
  split; [|repeat split; vm_compute; reflexivity].
  intros a response. unfold answer_in_response. apply str_in_spec.
Qed.

(** ** Style classifier *)

Section StyleClassifier.

Lemma split_nonempty (sep : ascii) (s : string) : split sep s <> [].
Proof.
  destruct s as [|c s]; simpl; [discriminate|].
  destruct (Ascii.eqb c sep); [discriminate|].
  destruct (split sep s); discriminate.
Qed.

(** Joining the pieces with the separator gives the string back. *)
Lemma split_concat (sep : ascii) (s : string) :
  concat (String sep "") (split sep s) = s.
Proof.
  induction s as [|c s IH]; [reflexivity|]. simpl.
  pose proof (split_nonempty sep s) as Hne.
  destruct (Ascii.eqb c sep) eqn:E.
  - apply Ascii.eqb_eq in E as ->.
    destruct (split sep s) as [|w ws]; [contradiction|].
    simpl in *. now rewrite IH.
  - destruct (split sep s) as [|w ws]; [contradiction|].
    destruct ws as [|w' ws]; simpl in *; now rewrite <- IH.
Qed.

(** No piece contains the separator. *)
Lemma split_pieces (sep : ascii) (s piece : string) :
  In piece (split sep s) -> str_in (String sep "") piece = false.
Proof.
  revert piece; induction s as [|c s IH]; intros piece; simpl.
  - intros [<- | []]. reflexivity.
  - destruct (Ascii.eqb c sep) eqn:E.
    + intros [<- | Hin]; [reflexivity | now apply IH].
    + pose proof (split_nonempty sep s) as Hne.
      destruct (split sep s) as [|w ws]; [contradiction|].
      intros [<- | Hin].
      * cbn [str_in startswith]. rewrite Ascii.eqb_sym, E. cbn [andb orb].
        apply IH. now left.
      * apply IH. now right.
Qed.

(** A string without the separator is one piece. *)
Lemma split_whole (sep : ascii) (s : string) :
  str_in (String sep "") s = false -> split sep s = [s].
Proof.
  induction s as [|c s IH]; [reflexivity|].
  cbn [str_in startswith split]. rewrite Ascii.eqb_sym.
  destruct (Ascii.eqb c sep); cbn [andb orb]; [discriminate|].
  intros Hs. now rewrite (IH Hs).
Qed.

(** The cut at one character is the cut at the characters equal to it. *)
Lemma split_where_sep (sep : ascii) (s : string) :
  split_where (fun c => Ascii.eqb c sep) s = split sep s.
Proof. induction s as [|c s IH]; [reflexivity|]. simpl. now rewrite IH. Qed.

Lemma in_sentences_of (response unit : string) :
  In unit (sentences_of response) <->
  exists piece, In piece (split "." response) /\
                unit = strip piece /\ 10 < len unit.
Proof.
  unfold sentences_of. rewrite in_map_iff. split.
  - intros [piece [<- Hin]]. apply filter_In in Hin as [Hin Hlen].
    exists piece. apply Z.ltb_lt in Hlen. now repeat split.
  - intros [piece [Hin [-> Hlen]]]. exists piece. split; [reflexivity|].
    apply filter_In. split; [assumption | now apply Z.ltb_lt].
Qed.

(** A keyword score is the number of keywords of the list that occur. *)
Lemma keyword_score_count (keywords : list string) (s : string) :
  keyword_score keywords s =
  Z.of_nat (List.length (filter (fun kw => str_in kw s) keywords)).
Proof.
  unfold keyword_score.
  induction keywords as [|kw kws IH]; [reflexivity|].
  cbn [fold_right filter]. rewrite IH.
  destruct (str_in kw s); cbn [List.length]; lia.
Qed.

Lemma fold_classify_step (l : list string) (m r : Z) :
  fold_left classify_step l (m, r) =
  (m + Z.of_nat (List.length (filter memory_leaning l)),
   r + Z.of_nat (List.length (filter reasoning_leaning l))).
Proof.
  revert m r; induction l as [|s l IH]; intros m r; simpl.
  - f_equal; lia.
  - unfold memory_leaning at 1, reasoning_leaning at 1.
    destruct (reasoning_score s <? memory_score s) eqn:E1.
    + apply Z.ltb_lt in E1.
      assert (E2 : (memory_score s <? reasoning_score s) = false)
        by (apply Z.ltb_ge; lia).
      rewrite E2, IH. simpl. f_equal; lia.
    + destruct (memory_score s <? reasoning_score s) eqn:E2;
        rewrite IH; simpl; f_equal; lia.
Qed.

Lemma classify_counts_spec (response : string) :
  classify_counts (sentences_of response) =
  (memory_units response, reasoning_units response).
Proof.
  unfold classify_counts, memory_units, reasoning_units.
  now rewrite fold_classify_step.
Qed.

Lemma units_nonneg (response : string) :
  0 <= memory_units response /\ 0 <= reasoning_units response.
Proof. unfold memory_units, reasoning_units. lia. Qed.

Lemma no_sentences_no_units (response : string) :
  sentences_of response = [] ->
  memory_units response = 0 /\ reasoning_units response = 0.
Proof.
  intros Hnil. unfold memory_units, reasoning_units. now rewrite Hnil.
Qed.

(** The classifier, case by case, for any float arithmetic. *)
Lemma analyze_ratio_cases {F : Type} `{PyFloat F} (response : string) :
  _analyze_memory_reasoning_ratio response =
  if memory_units response + reasoning_units response =? 0
  then Ret (literal 5 10)
  else Ret (int_div (memory_units response)
              (memory_units response + reasoning_units response)).
Proof.
  unfold _analyze_memory_reasoning_ratio.
  destruct (sentences_of response) as [|s l] eqn:Hs.
  - destruct (no_sentences_no_units _ Hs) as [-> ->]. reflexivity.
  - rewrite <- Hs, classify_counts_spec.
    destruct (memory_units response + reasoning_units response =? 0) eqn:E;
      [reflexivity|].
    unfold int_truediv. now rewrite E.
Qed.

Lemma Q_ratio_range (a b : Z) :
  0 <= a -> 0 <= b -> 0 < a + b ->
  (0 <= inject_Z a / inject_Z (a + b) <= 1)%Q.
Proof.
  intros Ha Hb Hab.
  assert (Hpos : (0 < inject_Z (a + b))%Q)
    by (unfold Qlt, inject_Z; cbn [Qnum Qden]; lia).
  split.
  - apply Qle_shift_div_l; [assumption|].
    unfold Qle, Qmult, inject_Z; cbn [Qnum Qden]; lia.
  - apply Qle_shift_div_r; [assumption|].
    unfold Qle, Qmult, inject_Z; cbn [Qnum Qden]; lia.
Qed.

End StyleClassifier.

(** The claim C3 as worded fails on a response whose sentences end in an
    exclamation mark and in a question mark.  The code cuts at full stops
    only: the whole response is one unit, with two memory keywords
    against one reasoning keyword, and the ratio is 1.0.  Cut at the
    three marks it has a reasoning-leaning unit and a memory-leaning
    one (the remainder has 10 characters only), and the ratio would be
    0.5. *)
Lemma sentence_terminal_cut_refuted :
  sentences_of exclaimed_response = [exclaimed_response] /\
  units_as_stated exclaimed_response =
    ["Therefore it works"; "I know the fact"] /\
  _analyze_memory_reasoning_ratio (F := spec_float) exclaimed_response =
    Ret (int_div 1 1) /\
  ratio_as_stated (F := spec_float) exclaimed_response = Ret (int_div 1 2) /\
  ~ ClassifierAsStated exclaimed_response.
Proof.
  repeat split; try (vm_compute; reflexivity).
  intros [Hunits _]. vm_compute in Hunits. discriminate.
Qed.

(** C3 (amended).  The style classifier cuts the response at the full
    stops and nowhere else: the pieces joined by full stops give the
    response back, no piece contains a full stop, and a response without
    a full stop is one piece, whatever other punctuation it has.  It
    strips each piece and keeps the pieces longer than 10 characters; a
    unit's score for a keyword list is the number of its keywords that
    occur in the lowercased unit; the loop counts the units whose memory
    score is strictly larger and those whose reasoning score is strictly
    larger, a unit with equal scores entering neither count; and when at
    least one unit is counted the result is
    [memory_count / (memory_count + reasoning_count)], in any float
    arithmetic.  The result always lies in [0, 1], as a double and as an
    exact value. *)
Theorem memory_ratio_of_classified_units (response : string) :
  concat "." (split "." response) = response /\
  (forall piece, In piece (split "." response) -> str_in "." piece = false) /\
  (str_in "." response = false -> split "." response = [response]) /\
  (forall unit,
      In unit (sentences_of response) <->
      exists piece, In piece (split "." response) /\
                    unit = strip piece /\ 10 < len unit) /\
  (forall unit,
      memory_score unit =
      Z.of_nat (List.length
                  (filter (fun kw => str_in kw (lower unit)) memory_keywords)) /\
      reasoning_score unit =
      Z.of_nat (List.length
                  (filter (fun kw => str_in kw (lower unit)) reasoning_keywords))) /\
  classify_counts (sentences_of response) =
  (memory_units response, reasoning_units response) /\
  (forall unit,
      (memory_leaning unit = true <-> reasoning_score unit < memory_score unit) /\
      (reasoning_leaning unit = true <-> memory_score unit < reasoning_score unit) /\
      (memory_score unit = reasoning_score unit ->
       memory_leaning unit = false /\ reasoning_leaning unit = false)) /\
  (forall (F : Type) (A : PyFloat F),
      0 < memory_units response + reasoning_units response ->
      _analyze_memory_reasoning_ratio response =
      Ret (int_div (memory_units response)
             (memory_units response + reasoning_units response))) /\
  (exists ratio : spec_float,
      _analyze_memory_reasoning_ratio response = Ret ratio /\
      int_leb 0 ratio = true /\ int_geb 1 ratio = true) /\
  (exists ratio : Q,
      _analyze_memory_reasoning_ratio response = Ret ratio /\
      (0 <= ratio <= 1)%Q).
Proof.
  split; [apply split_concat|].
  split; [intros piece; apply split_pieces|].
  split; [apply split_whole|].
  split; [intros unit; apply in_sentences_of|].
  split; [intros unit; split; apply keyword_score_count|].
  split; [apply classify_counts_spec|].
  split; [|split; [|split]].
  - intros unit. unfold memory_leaning, reasoning_leaning.
    rewrite !Z.ltb_lt. repeat split; try tauto.
    + apply Z.ltb_ge; lia.
    + apply Z.ltb_ge; lia.
  - intros F A Hpos. rewrite analyze_ratio_cases.
    destruct (memory_units response + reasoning_units response =? 0) eqn:E;
      [apply Z.eqb_eq in E; lia | reflexivity].
  - rewrite analyze_ratio_cases.
    destruct (units_nonneg response) as [Hm Hr].
    destruct (memory_units response + reasoning_units response =? 0) eqn:E.
    + eexists. split; [reflexivity|]. split; reflexivity.
    + apply Z.eqb_neq in E. eexists. split; [reflexivity|].
      apply b64_int_div_unit; lia.
  - rewrite analyze_ratio_cases.
    destruct (units_nonneg response) as [Hm Hr].
    destruct (memory_units response + reasoning_units response =? 0) eqn:E.
    + eexists. split; [reflexivity|]. split; discriminate.
    + apply Z.eqb_neq in E. eexists. split; [reflexivity|].
      apply Q_ratio_range; lia.
Qed.

Lemma memory_ratio_of_classified_units_witness :
  split "." exclaimed_response = [exclaimed_response] /\
  0 < memory_units exclaimed_response + reasoning_units exclaimed_response /\
  _analyze_memory_reasoning_ratio (F := spec_float) exclaimed_response =
  Ret (S754_finite false 4503599627370496 (-52)).
Proof.
  split; [|split; [reflexivity|]].
  - apply (proj1 (proj2 (proj2
             (memory_ratio_of_classified_units exclaimed_response)))).
    reflexivity.
  - rewrite (proj1 (proj2 (proj2 (proj2 (proj2 (proj2 (proj2 (proj2
               (memory_ratio_of_classified_units exclaimed_response))))))))
               spec_float Binary64.b64);
      reflexivity.
Defined.

Lemma filter_none {A : Type} (f : A -> bool) (l : list A) :
  (forall a, In a l -> f a = false) -> filter f l = [].
Proof.
  induction l as [|a l IH]; intros Hall; simpl; [reflexivity|].
  rewrite (Hall a) by now left. apply IH. intros b Hb. apply Hall. now right.
Qed.

(** C8.  When no unit of the response leans either way (in particular
    when the response has no unit at all) the classifier returns 0.5: the
    double [2^52 * 2^-53] in binary64, a half on exact values. *)
Theorem neutral_ratio_when_unclassified (response : string) :
  (forall unit, In unit (sentences_of response) ->
                memory_leaning unit = false /\ reasoning_leaning unit = false) ->
  (forall (F : Type) (A : PyFloat F),
      _analyze_memory_reasoning_ratio response = Ret (literal 5 10)) /\
  _analyze_memory_reasoning_ratio (F := spec_float) response =
  Ret (S754_finite false 4503599627370496 (-53)) /\
  (exists ratio : Q,
      _analyze_memory_reasoning_ratio response = Ret ratio /\
      (ratio == 1 # 2)%Q).
Proof.
  intros Hnone.
  assert (Hm : memory_units response = 0).
  { unfold memory_units. rewrite filter_none; [reflexivity|].
    intros u Hu. apply (Hnone u Hu). }
  assert (Hr : reasoning_units response = 0).
  { unfold reasoning_units. rewrite filter_none; [reflexivity|].
    intros u Hu. apply (Hnone u Hu). }
  assert (Hgen : forall (F : Type) (A : PyFloat F),
             _analyze_memory_reasoning_ratio response = Ret (literal 5 10)).
  { intros F A. rewrite analyze_ratio_cases, Hm, Hr. reflexivity. }
  split; [exact Hgen|]. split.
  - rewrite Hgen. vm_compute. reflexivity.
  - eexists. split; [apply Hgen|]. vm_compute. reflexivity.
Qed.

Lemma neutral_ratio_when_unclassified_witness :
  _analyze_memory_reasoning_ratio (F := spec_float)
    "The weather is nice today. OK." =
  Ret (S754_finite false 4503599627370496 (-53)).
Proof.
  apply (neutral_ratio_when_unclassified "The weather is nice today. OK.").
  intros unit [<- | []]. split; reflexivity.
Defined.

(** ** Aggregation *)

Section AggregationFacts.

Lemma exact_threshold (n m : Z) :
  int_geb (F := Q) m (fmul (of_int n) (literal 8 10)) = (4 * n <=? 5 * m).
Proof.
  cbn [int_geb fmul of_int literal Exact.exact].
  apply eq_true_iff_eq. rewrite Qle_bool_iff, Z.leb_le.
  change (inject_Z 8 / inject_Z 10)%Q with (8 # 10)%Q.
  unfold Qle, Qmult, inject_Z; cbn [Qnum Qden]. lia.
Qed.

(** The scorer decides alike in both arithmetics. *)
Lemma check_logic_answer_exact (response expected : string) :
  _check_logic_answer (F := Q) response expected =
  _check_logic_answer (F := spec_float) response expected.
Proof.
  unfold _check_logic_answer. rewrite count_matches_filter.
  pose proof (extract_pairs_length (lower expected)) as Hlen.
  pose proof (filter_length_le (pair_matches (lower response))
                (extract_pairs (lower expected))) as Hle.
  rewrite b64_threshold by lia. apply exact_threshold.
Qed.

Context {F : Type} `{PyFloat F} {World : Type}.
Variable query : string -> World -> string * World.

Lemma score_cases_bounds (cases : list case) (c : Z) (w : World) :
  c <= fst (score_cases query cases c w) <= c + Z.of_nat (List.length cases).
Proof.
  revert c w; induction cases as [|x cases IH]; intros c w.
  - simpl. lia.
  - cbn [score_cases List.length].
    destruct (query (logic_prompt (quiz x)) w) as [response w'].
    destruct (_check_logic_answer response (expected x)).
    + specialize (IH (c + 1) w'). lia.
    + specialize (IH c w'). lia.
Qed.

Lemma score_problems_bounds (problems : list problem) (c : Z) (w : World) :
  c <= fst (score_problems query problems c w)
    <= c + Z.of_nat (List.length problems).
Proof.
  revert c w; induction problems as [|x problems IH]; intros c w.
  - simpl. lia.
  - cbn [score_problems List.length].
    destruct (query (arithmetic_prompt (problem_text x)) w) as [response w'].
    destruct (answer_in_response (problem_answer x) response).
    + specialize (IH (c + 1) w'). lia.
    + specialize (IH c w'). lia.
Qed.

Lemma accuracy_of_cases (correct total : Z) :
  accuracy_of correct total =
  Ret (if 0 <? total then int_div correct total else of_int 0).
Proof.
  unfold accuracy_of, int_truediv.
  destruct (0 <? total) eqn:E; [|reflexivity].
  apply Z.ltb_lt in E.
  destruct (total =? 0) eqn:E0; [apply Z.eqb_eq in E0; lia | reflexivity].
Qed.

Lemma evaluate_cases_result (cases : list case) (w : World) :
  exists m w',
    evaluate_cases query cases w = Ret (m, w') /\
    total m = Z.of_nat (List.length cases) /\
    0 <= correct m <= total m /\
    accuracy m =
    (if 0 <? total m then int_div (correct m) (total m)
     else of_int 0).
Proof.
  unfold evaluate_cases.
  pose proof (score_cases_bounds cases 0 w) as Hb.
  destruct (score_cases query cases 0 w) as [c w'].
  rewrite accuracy_of_cases. cbn [bind]. eexists. eexists.
  split; [reflexivity|]. cbn [fst total correct accuracy] in *.
  repeat split; lia.
Qed.

Lemma evaluate_problems_result (problems : list problem) (w : World) :
  exists correct total acc w',
    evaluate_problems query problems w = Ret (correct, total, acc, w') /\
    total = Z.of_nat (List.length problems) /\
    0 <= correct <= total /\
    acc =
    (if 0 <? total then int_div correct total else of_int 0).
Proof.
  unfold evaluate_problems.
  pose proof (score_problems_bounds problems 0 w) as Hb.
  destruct (score_problems query problems 0 w) as [c w'].
  rewrite accuracy_of_cases. cbn [bind]. do 4 eexists.
  split; [reflexivity|]. cbn [fst] in *. repeat split; lia.
Qed.

End AggregationFacts.

Lemma Q_accuracy_range (correct total : Z) :
  0 <= correct <= total ->
  (0 <= (if 0 <? total then inject_Z correct / inject_Z total
         else inject_Z 0) <= 1)%Q.
Proof.
  intros Hc. destruct (0 <? total) eqn:E.
  - apply Z.ltb_lt in E.
    replace total with (correct + (total - correct)) at 1 2 by lia.
    apply Q_ratio_range; lia.
  - split; discriminate.
Qed.

Lemma b64_accuracy_range (correct total : Z) :
  0 <= correct <= total ->
  int_leb (F := spec_float) 0
    (if 0 <? total then int_div correct total else of_int 0) = true /\
  int_geb (F := spec_float) 1
    (if 0 <? total then int_div correct total else of_int 0) = true.
Proof.
  intros Hc. destruct (0 <? total) eqn:E.
  - apply Z.ltb_lt in E. apply b64_int_div_unit; lia.
  - split; reflexivity.
Qed.

(** C9.  For every group of cases and every model, the evaluation of the
    group ends without an error; its accuracy is [correct / total] when
    [total > 0] and [0] when [total = 0], in any float arithmetic; each
    case adds at most one to [correct], so [0 <= correct <= total]; and
    [0 <= accuracy <= 1], as a double and as an exact value.  The same
    holds of [evaluate_problems]. *)
Theorem accuracy_is_ratio_in_unit_interval :
  (forall (F : Type) (A : PyFloat F) (World : Type)
          (query : string -> World -> string * World)
          (cases : list case) (w : World),
      exists m w',
        evaluate_cases query cases w = Ret (m, w') /\
        total m = Z.of_nat (List.length cases) /\
        0 <= correct m <= total m /\
        (0 < total m ->
         accuracy m = int_div (correct m) (total m)) /\
        (total m = 0 -> accuracy m = of_int 0)) /\
  (forall (World : Type) (query : string -> World -> string * World)
          (cases : list case) (w : World),
      exists (m : metric spec_float) w',
        evaluate_cases query cases w = Ret (m, w') /\
        int_leb 0 (accuracy m) = true /\ int_geb 1 (accuracy m) = true) /\
  (forall (World : Type) (query : string -> World -> string * World)
          (cases : list case) (w : World),
      exists (m : metric Q) w',
        evaluate_cases query cases w = Ret (m, w') /\
        (0 <= accuracy m <= 1)%Q) /\
  (forall (F : Type) (A : PyFloat F) (World : Type)
          (query : string -> World -> string * World)
          (problems : list problem) (w : World),
      exists correct total acc w',
        evaluate_problems query problems w = Ret (correct, total, acc, w') /\
        total = Z.of_nat (List.length problems) /\
        0 <= correct <= total /\
        (0 < total -> acc = int_div correct total) /\
        (total = 0 -> acc = of_int 0)) /\
  (forall (World : Type) (query : string -> World -> string * World)
          (problems : list problem) (w : World),
      exists correct total (acc : spec_float) w',
        evaluate_problems query problems w = Ret (correct, total, acc, w') /\
        int_leb 0 acc = true /\ int_geb 1 acc = true) /\
  (forall (World : Type) (query : string -> World -> string * World)
          (problems : list problem) (w : World),
      exists correct total (acc : Q) w',
        evaluate_problems query problems w = Ret (correct, total, acc, w') /\
        (0 <= acc <= 1)%Q).
Proof.
  split; [|split; [|split; [|split; [|split]]]].
  - intros F A World query cases w.
    destruct (evaluate_cases_result query cases w)
      as [m [w' [Hrun [Htotal [Hcorrect Hacc]]]]].
    exists m, w'. repeat split; try assumption; try lia.
    + intros Hpos. rewrite Hacc.
      destruct (0 <? total m) eqn:E; [reflexivity | apply Z.ltb_ge in E; lia].
    + intros Hzero. rewrite Hacc, Hzero. reflexivity.
  - intros World query cases w.
    destruct (evaluate_cases_result (F := spec_float) query cases w)
      as [m [w' [Hrun [Htotal [Hcorrect Hacc]]]]].
    exists m, w'. split; [assumption|]. rewrite Hacc.
    apply b64_accuracy_range. assumption.
  - intros World query cases w.
    destruct (evaluate_cases_result (F := Q) query cases w)
      as [m [w' [Hrun [Htotal [Hcorrect Hacc]]]]].
    exists m, w'. split; [assumption|]. rewrite Hacc.
    apply Q_accuracy_range. assumption.
  - intros F A World query problems w.
    destruct (evaluate_problems_result query problems w)
      as [c [t [acc [w' [Hrun [Htotal [Hcorrect Hacc]]]]]]].
    exists c, t, acc, w'. repeat split; try assumption; try lia.
    + intros Hpos. rewrite Hacc.
      destruct (0 <? t) eqn:E; [reflexivity | apply Z.ltb_ge in E; lia].
    + intros Hzero. rewrite Hacc, Hzero. reflexivity.
  - intros World query problems w.
    destruct (evaluate_problems_result (F := spec_float) query problems w)
      as [c [t [acc [w' [Hrun [Htotal [Hcorrect Hacc]]]]]]].
    exists c, t, acc, w'. split; [assumption|]. rewrite Hacc.
    apply b64_accuracy_range. assumption.
  - intros World query problems w.
    destruct (evaluate_problems_result (F := Q) query problems w)
      as [c [t [acc [w' [Hrun [Htotal [Hcorrect Hacc]]]]]]].
    exists c, t, acc, w'. split; [assumption|]. rewrite Hacc.
    apply Q_accuracy_range. assumption.
Qed.

Lemma accuracy_is_ratio_in_unit_interval_witness :
  exists (m : metric Q) (w' : unit),
    evaluate_cases (fun _ w => ("Zoey is a knight", w))
      [ {| quiz := "Who is a knight?"; expected := zoey_oliver |};
        {| quiz := "Who is a knave?"; expected := "William is a knave" |} ] tt
    = Ret (m, w') /\
    (0 <= accuracy m <= 1)%Q.
Proof.
  exact (proj1 (proj2 (proj2 accuracy_is_ratio_in_unit_interval)) unit
           (fun _ w => ("Zoey is a knight", w))
           [ {| quiz := "Who is a knight?"; expected := zoey_oliver |};
             {| quiz := "Who is a knave?"; expected := "William is a knave" |} ]
           tt).
Defined.

(** ** Perturbation drop *)

Lemma exact_positive (b : Q) :
  (0 < b)%Q ->
  fltb (F := Q) (of_int 0) b = true /\ feqb (F := Q) b (of_int 0) = false.
Proof.
  intros Hb. cbn [fltb feqb of_int Exact.exact]. split.
  - apply negb_true_iff. destruct (Qle_bool b (inject_Z 0)) eqn:E; [|reflexivity].
    apply Qle_bool_iff in E. exfalso. apply (Qlt_not_le _ _ Hb E).
  - destruct (Qeq_bool b (inject_Z 0)) eqn:E; [|reflexivity].
    apply Qeq_bool_iff in E. rewrite E in Hb. discriminate.
Qed.

Lemma exact_zero (b : Q) :
  (b == 0)%Q -> fltb (F := Q) (of_int 0) b = false.
Proof.
  intros Hb. cbn [fltb of_int Exact.exact]. apply negb_false_iff.
  apply Qle_bool_iff. rewrite Hb. discriminate.
Qed.

Lemma b64_positive (b : spec_float) :
  fltb (F := spec_float) (of_int 0) b = true ->
  feqb (F := spec_float) b (of_int 0) = false.
Proof.
  cbn [fltb feqb of_int Binary64.b64].
  destruct b as [s | s | | s m e]; try destruct s; vm_compute; congruence.
Qed.

(** Every accuracy the harness computes is a valid double. *)
Lemma accuracy_valid (correct total : Z) (acc : spec_float) :
  accuracy_of correct total = Ret acc ->
  valid_binary Binary64.prec Binary64.emax acc = true.
Proof.
  unfold accuracy_of, int_truediv.
  destruct (0 <? total); [destruct (total =? 0); [discriminate|]|];
    intros [= <-]; [apply SFdiv_valid | reflexivity].
Qed.

(** C4.  The drop is the quotient [(b - v) / b] when [b > 0] and exactly
    [0] when [b = 0], no division error being raised: on exact values,
    and in binary64 for any two floats, where the quotient is the rounded
    difference divided by [b] and rounded again.  When [v > b] the
    quotient is negative, and it is returned as it is: on exact values,
    and in binary64 for any two doubles, so in particular for any two
    accuracies the harness computes, which are doubles.  The sign is
    that of the quotient, so it is stated where the quotient is taken,
    [b > 0]; at [b = 0] the drop is the [0] of the guard whatever [v]
    is.  The ["performance_drop"] of the counterfactual run is the same
    function. *)
Theorem drop_guarded_quotient :
  (forall b v : Q,
      ((0 < b)%Q -> drop b v = Ret ((b - v) / b)%Q) /\
      ((b == 0)%Q -> drop b v = Ret 0%Q) /\
      ((0 < b)%Q -> (b < v)%Q -> exists d, drop b v = Ret d /\ (d < 0)%Q) /\
      performance_drop b v = drop b v) /\
  (forall b v : spec_float,
      (fltb (of_int 0) b = true -> drop b v = Ret (fdiv (fsub b v) b)) /\
      (feqb b (of_int 0) = true -> drop b v = Ret (of_int 0)) /\
      (fltb (of_int 0) b = false -> drop b v = Ret (of_int 0)) /\
      (valid_binary Binary64.prec Binary64.emax b = true ->
       valid_binary Binary64.prec Binary64.emax v = true ->
       fltb (of_int 0) b = true -> fltb b v = true ->
       exists d, drop b v = Ret d /\ fltb d (of_int 0) = true) /\
      performance_drop b v = drop b v) /\
  (forall (cb tb cv tv : Z) (b v : spec_float),
      accuracy_of cb tb = Ret b -> accuracy_of cv tv = Ret v ->
      valid_binary Binary64.prec Binary64.emax b = true /\
      valid_binary Binary64.prec Binary64.emax v = true /\
      (fltb (of_int 0) b = true -> fltb b v = true ->
       exists d, drop b v = Ret d /\ fltb d (of_int 0) = true)).
Proof.
  assert (Hsign : forall b v : spec_float,
             valid_binary Binary64.prec Binary64.emax b = true ->
             valid_binary Binary64.prec Binary64.emax v = true ->
             fltb (of_int 0) b = true -> fltb b v = true ->
             exists d, drop b v = Ret d /\ fltb d (of_int 0) = true).
  { intros b v Hvb Hvv Hb Hlt. exists (fdiv (fsub b v) b). split.
    - unfold drop, float_truediv.
      rewrite Hb, (b64_positive b Hb). reflexivity.
    - apply b64_drop_negative; assumption. }
  split; [|split].
  - intros b v.
    assert (Hq : (0 < b)%Q -> drop b v = Ret ((b - v) / b)%Q).
    { intros Hb. destruct (exact_positive b Hb) as [Hlt Hne].
      unfold drop, float_truediv. rewrite Hlt, Hne. reflexivity. }
    split; [exact Hq|]. split; [|split].
    + intros Hb. unfold drop. rewrite (exact_zero b Hb). reflexivity.
    + intros Hb Hv. eexists. split; [apply Hq; assumption|].
      apply Qlt_shift_div_r; [assumption|].
      rewrite Qmult_0_l. unfold Qminus. rewrite <- (Qplus_opp_r v).
      apply Qplus_lt_l. assumption.
    + reflexivity.
  - intros b v.
    assert (Hq : fltb (of_int 0) b = true ->
                 drop b v = Ret (fdiv (fsub b v) b)).
    { intros Hb. unfold drop, float_truediv.
      rewrite Hb, (b64_positive b Hb). reflexivity. }
    split; [exact Hq|]. split; [|split; [|split]].
    + intros Hb. unfold drop.
      destruct b as [s | s | |s m e]; try destruct s; try discriminate;
        reflexivity.
    + intros Hb. unfold drop. rewrite Hb. reflexivity.
    + apply Hsign.
    + reflexivity.
  - intros cb tb cv tv b v Hb Hv.
    pose proof (accuracy_valid cb tb b Hb) as Hvb.
    pose proof (accuracy_valid cv tv v Hv) as Hvv.
    split; [assumption|]. split; [assumption|]. now apply Hsign.
Qed.

Lemma drop_guarded_quotient_witness :
  exists d,
    drop (F := spec_float) (int_div 1 2) (int_div 2 2) = Ret d /\
    fltb d (of_int 0) = true.
Proof.
  apply (proj2 (proj2 (proj2 (proj2 drop_guarded_quotient)
           1 2 2 2 (int_div 1 2) (int_div 2 2)
           ltac:(reflexivity) ltac:(reflexivity))));
    vm_compute; reflexivity.
Defined.

(** The claim C5 as worded fails in binary64: with the accuracies 0.80 and
    0.50 the computed drop is not the double 0.375. *)
Lemma drop_080_050_not_0375 :
  drop (F := spec_float) (literal 80 100) (literal 50 100) <>
  Ret (literal 375 1000).
Proof. vm_compute. discriminate. Qed.

(** C5 (amended).  The accuracies 0.80 and 0.50 are what 4 of 5 and 1 of
    2 correct cases give.  For them the drop computed in binary64 is the
    double next above 0.375, that is [6755399441055745 * 2^-54]; it
    exceeds 0.2, so the variant is flagged.  On exact values the drop is
    3/8, and is flagged as well. *)
Theorem drop_080_050 :
  accuracy_of (F := spec_float) 4 5 = Ret (literal 80 100) /\
  accuracy_of (F := spec_float) 1 2 = Ret (literal 50 100) /\
  drop (F := spec_float) (literal 80 100) (literal 50 100) =
  Ret (SFsucc Binary64.prec Binary64.emax (literal 375 1000)) /\
  SFsucc Binary64.prec Binary64.emax (literal 375 1000) =
  S754_finite false 6755399441055745 (-54) /\
  significant (F := spec_float)
    (SFsucc Binary64.prec Binary64.emax (literal 375 1000)) = true /\
  (exists d : Q,
      drop (literal 80 100) (literal 50 100) = Ret d /\
      (d == 3 # 8)%Q /\ significant d = true).
Proof.
  repeat split; try (vm_compute; reflexivity).
  eexists. split; [vm_compute; reflexivity|].
  split; vm_compute; reflexivity.
Qed.

(** ** Model clients *)

Lemma empty_not_sentinel : ~ Clients.Sentinel "".
Proof.
  intros [kind [detail [Hkind Heq]]].
  destruct kind; [congruence | discriminate].
Qed.

(** The claim C6 as worded fails for [LocalLLM]: a failing generation
    ends in the empty string, which is not a sentinel. *)
Lemma LocalLLM_failure_not_sentinel : ~ LocalLLMSentinelAsStated.
Proof.
  intros Hall.
  destruct (Hall "What is 2+2?" (Exception "CUDA out of memory"))
    as [s [Hrun Hs]].
  vm_compute in Hrun. injection Hrun as <-.
  exact (empty_not_sentinel Hs).
Qed.

(** C6 (amended).  [OpenAIModel.query] and [OllamaModel.query] never
    raise: whatever [requests.post] does they return a string, and when
    the request fails in transport or comes back with a status other than
    200 the string is a sentinel "<Kind> Error: <detail>" ("Request
    Error: ..." and "API Error: <status>"; "Ollama Connection Error: ..."
    and "Ollama Error: <status>").  [LocalLLM.query] never raises either
    while generating, but a failing generation ends in the empty string
    (one empty string per prompt for a batch) instead of a sentinel. *)
Theorem clients_never_raise :
  (forall post, exists s, Clients.OpenAIModel_query post = Ret s) /\
  (forall post, exists s, Clients.OllamaModel_query post = Ret s) /\
  (forall e,
      Clients.OpenAIModel_query (Raise e) = Ret ("Request Error: " ++ str_exn e) /\
      Clients.OllamaModel_query (Raise e) =
      Ret ("Ollama Connection Error: " ++ str_exn e)) /\
  (forall response,
      Clients.status_code response <> 200 ->
      Clients.OpenAIModel_query (Ret response) =
      Ret ("API Error: " ++ str_int (Clients.status_code response)) /\
      Clients.OllamaModel_query (Ret response) =
      Ret ("Ollama Error: " ++ str_int (Clients.status_code response))) /\
  (forall post,
      Failed post ->
      (exists s, Clients.OpenAIModel_query post = Ret s /\ Clients.Sentinel s) /\
      (exists s, Clients.OllamaModel_query post = Ret s /\ Clients.Sentinel s)) /\
  (forall prompt generated_texts,
      exists out, Clients.LocalLLM_generate prompt generated_texts = Ret out) /\
  (forall prompt e,
      Clients.LocalLLM_query prompt (Raise e) = Ret (Clients.Text "")) /\
  (forall prompts e,
      Clients.LocalLLM_generate (Clients.Texts prompts) (Raise e) =
      Ret (Clients.Texts (repeat "" (List.length prompts)))).
Proof.
  assert (Hstatus : forall response,
             Clients.status_code response <> 200 ->
             Clients.OpenAIModel_query (Ret response) =
             Ret ("API Error: " ++ str_int (Clients.status_code response)) /\
             Clients.OllamaModel_query (Ret response) =
             Ret ("Ollama Error: " ++ str_int (Clients.status_code response))).
  { intros response Hne.
    unfold Clients.OpenAIModel_query, Clients.OllamaModel_query.
    cbn [bind try_except].
    apply Z.eqb_neq in Hne. rewrite Hne. split; reflexivity. }
  split; [|split; [|split; [|split; [|split; [|split; [|split]]]]]].
  - intros [response | e]; [|eexists; reflexivity].
    unfold Clients.OpenAIModel_query. cbn [bind try_except].
    destruct (Clients.status_code response =? 200); [|eexists; reflexivity].
    destruct (Clients.generated_text response); eexists; reflexivity.
  - intros [response | e]; [|eexists; reflexivity].
    unfold Clients.OllamaModel_query. cbn [bind try_except].
    destruct (Clients.status_code response =? 200); [|eexists; reflexivity].
    destruct (Clients.generated_text response); eexists; reflexivity.
  - intros e. split; reflexivity.
  - exact Hstatus.
  - intros [response | e] Hfail; cbn [Failed] in Hfail.
    + destruct (Hstatus response Hfail) as [Ho Hl]. split.
      * eexists. split; [exact Ho|]. exists "API". eexists.
        split; [discriminate | reflexivity].
      * eexists. split; [exact Hl|]. exists "Ollama". eexists.
        split; [discriminate | reflexivity].
    + split.
      * eexists. split; [reflexivity|]. exists "Request". eexists.
        split; [discriminate | reflexivity].
      * eexists. split; [reflexivity|]. exists "Ollama Connection". eexists.
        split; [discriminate | reflexivity].
  - intros prompt [texts | e]; unfold Clients.LocalLLM_generate;
      cbn [bind try_except]; [|eexists; reflexivity].
    destruct (Clients.is_list prompt); [eexists; reflexivity|].
    destruct texts; eexists; reflexivity.
  - intros prompt e. reflexivity.
  - intros prompts e. reflexivity.
Qed.

Lemma clients_never_raise_witness :
  (exists s,
      Clients.OpenAIModel_query
        (Ret {| Clients.status_code := 503;
                Clients.generated_text := Raise (Exception "no body") |}) = Ret s /\
      Clients.Sentinel s) /\
  (exists s,
      Clients.OllamaModel_query
        (Ret {| Clients.status_code := 503;
                Clients.generated_text := Raise (Exception "no body") |}) = Ret s /\
      Clients.Sentinel s).
Proof.
  apply (proj1 (proj2 (proj2 (proj2 (proj2 clients_never_raise))))).
  simpl. discriminate.
Defined.

(** * Further properties of the scorers *)

Section ScorerFacts.

Lemma filter_length_mono {A : Type} (f g : A -> bool) (l : list A) :
  (forall a, In a l -> f a = true -> g a = true) ->
  (List.length (filter f l) <= List.length (filter g l))%nat.
Proof.
  induction l as [|a l IH]; intros Himp; simpl; [lia|].
  assert (IH' : (List.length (filter f l) <= List.length (filter g l))%nat).
  { apply IH. intros b Hb. apply Himp. now right. }
  destruct (f a) eqn:Ef.
  - rewrite (Himp a (or_introl eq_refl) Ef). simpl. lia.
  - destruct (g a); simpl; lia.
Qed.

Lemma filter_all {A : Type} (f : A -> bool) (l : list A) :
  (forall a, In a l -> f a = true) -> filter f l = l.
Proof.
  induction l as [|a l IH]; intros Hall; simpl; [reflexivity|].
  rewrite (Hall a) by now left. f_equal. apply IH.
  intros b Hb. apply Hall. now right.
Qed.

Lemma filter_length_miss {A : Type} (f : A -> bool) (l : list A) (x : A) :
  In x l -> f x = false ->
  (List.length (filter f l) < List.length l)%nat.
Proof.
  induction l as [|a l IH]; intros Hin Hx; [destruct Hin|].
  pose proof (filter_length_le f l) as Hle. simpl.
  destruct Hin as [-> | Hin].
  - rewrite Hx. lia.
  - specialize (IH Hin Hx). destruct (f a); simpl; lia.
Qed.

Lemma substring_prefix (s : string) (m : nat) :
  exists post, s = substring 0 m s ++ post.
Proof.
  revert m; induction s as [|c s IH]; intros m.
  - exists "". destruct m; reflexivity.
  - destruct m as [|m]; [now exists (String c s)|].
    destruct (IH m) as [post Hs]. exists post. simpl. now rewrite <- Hs.
Qed.

Lemma substring_Substring (s : string) (n m : nat) :
  Substring (substring n m s) s.
Proof.
  revert n; induction s as [|c s IH]; intros n.
  - exists "", "". destruct n, m; reflexivity.
  - destruct n as [|n].
    + destruct (substring_prefix (String c s) m) as [post Hs].
      now exists "", post.
    + destruct (IH n) as [pre [post Hs]].
      exists (String c pre), post. simpl. now rewrite <- Hs.
Qed.

Lemma pair_matches_mono (r r' : string) (p : string * string) :
  Substring r r' -> pair_matches r p = true -> pair_matches r' p = true.
Proof.
  intros Hsub Hp. apply pair_matches_spec in Hp as [Hn Hr].
  apply pair_matches_spec.
  split; eapply Substring_trans; eassumption.
Qed.

Lemma extracted_role (e name role : string) :
  In (name, role) (extract_pairs e) ->
  In name names /\ (role = "knight" \/ role = "knave") /\
  Substring name e /\ Substring role e.
Proof.
  intros Hin. apply in_extract_pairs in Hin as [Hname [i [Hfirst Hrole]]].
  split; [assumption|].
  assert (Hwin : forall w, Substring w (substring i 50 e) -> Substring w e).
  { intros w Hw. eapply Substring_trans; [exact Hw|].
    apply substring_Substring. }
  destruct Hrole as [[-> Hk] | [-> [Hv _]]].
  - split; [now left|]. split; [eapply FirstAt_Substring; eassumption|].
    now apply Hwin.
  - split; [now right|]. split; [eapply FirstAt_Substring; eassumption|].
    now apply Hwin.
Qed.

Lemma name_pair_fst (e name : string) :
  map fst (name_pair e name) = [] \/ map fst (name_pair e name) = [name].
Proof.
  unfold name_pair, expected_pairs_step.
  destruct (str_in name e); [|now left].
  destruct (str_in "knight" (role_window e name)); [now right|].
  destruct (str_in "knave" (role_window e name)); [now right | now left].
Qed.

Lemma NoDup_flat_map_names (e : string) (l : list string) :
  NoDup l ->
  NoDup (map fst (flat_map (name_pair e) l)) /\
  (forall n, In n (map fst (flat_map (name_pair e) l)) -> In n l).
Proof.
  induction l as [|a l IH]; intros Hnd; simpl.
  - split; [constructor | intros n []].
  - inversion Hnd as [|? ? Hnotin Hnd']; subst.
    destruct (IH Hnd') as [IHnd IHin].
    rewrite map_app. destruct (name_pair_fst e a) as [-> | ->]; simpl.
    + split; [assumption | intros n Hn; right; now apply IHin].
    + split.
      * constructor; [|assumption]. intros Ha. apply Hnotin. now apply IHin.
      * intros n [<- | Hn]; [now left | right; now apply IHin].
Qed.

End ScorerFacts.

(** X1.  Adding text to a response, or changing its case, never turns a
    correct logic answer into an incorrect one. *)
Theorem check_logic_answer_monotone (response response' expected : string) :
  Substring (lower response) (lower response') ->
  _check_logic_answer (F := spec_float) response expected = true ->
  _check_logic_answer (F := spec_float) response' expected = true.
Proof.
  intros Hsub Hok. apply check_logic_answer_threshold in Hok.
  apply check_logic_answer_threshold.
  pose proof (filter_length_mono (pair_matches (lower response))
                (pair_matches (lower response'))
                (extract_pairs (lower expected))
                (fun p _ => pair_matches_mono _ _ p Hsub)) as Hmono.
  lia.
Qed.

Lemma check_logic_answer_monotone_witness :
  _check_logic_answer (F := spec_float)
    "I think ZOEY is a KNIGHT!" "Zoey is a knight" = true.
Proof.
  apply (check_logic_answer_monotone "zoey is a knight"
           "I think ZOEY is a KNIGHT!" "Zoey is a knight").
  - exists "i think ", "!". reflexivity.
  - reflexivity.
Defined.

(** X2.  With at most four extracted pairs the logic scorer wants every
    pair satisfied; with five or six it lets exactly one go unsatisfied. *)
Theorem check_logic_answer_tolerance (response expected : string) :
  _check_logic_answer (F := spec_float) response expected = true <->
  if (List.length (extract_pairs (lower expected)) <=? 4)%nat
  then filter (pair_matches (lower response)) (extract_pairs (lower expected))
       = extract_pairs (lower expected)
  else (List.length (extract_pairs (lower expected)) - 1 <=
        List.length (filter (pair_matches (lower response))
                       (extract_pairs (lower expected))))%nat.
Proof.
  rewrite check_logic_answer_threshold.
  pose proof (extract_pairs_length (lower expected)) as Hlen.
  pose proof (filter_length_le (pair_matches (lower response))
                (extract_pairs (lower expected))) as Hle.
  destruct (List.length (extract_pairs (lower expected)) <=? 4)%nat eqn:E.
  - apply Nat.leb_le in E. split.
    + intros Hthr. apply filter_all. intros p Hp.
      destruct (pair_matches (lower response) p) eqn:Hm; [reflexivity|].
      exfalso.
      assert (Hlt : (List.length
                       (filter (pair_matches (lower response))
                          (extract_pairs (lower expected))) <
                     List.length (extract_pairs (lower expected)))%nat).
      { apply filter_length_miss with (x := p); assumption. }
      lia.
    + intros ->. lia.
  - apply Nat.leb_gt in E. lia.
Qed.

(** X3.  The logic scorer does not look at who is given which role: a
    response in which both role words occur, and every known name of the
    expected answer, is scored correct. *)
Theorem check_logic_answer_ignores_assignment (response expected : string) :
  Substring "knight" (lower response) ->
  Substring "knave" (lower response) ->
  (forall name, In name names -> Substring name (lower expected) ->
                Substring name (lower response)) ->
  _check_logic_answer (F := spec_float) response expected = true.
Proof.
  intros Hknight Hknave Hnames. apply check_logic_answer_threshold.
  rewrite filter_all; [lia|].
  intros [name role] Hin.
  destruct (extracted_role _ _ _ Hin) as [Hname [Hrole [Hocc _]]].
  apply pair_matches_spec. cbn [fst snd]. split.
  - now apply Hnames.
  - destruct Hrole as [-> | ->]; assumption.
Qed.

Lemma check_logic_answer_ignores_assignment_witness :
  _check_logic_answer (F := spec_float)
    "Zoey is a knave, Oliver is a knight"
    "Zoey is a knight, Oliver is a knave" = true.
Proof.
  apply check_logic_answer_ignores_assignment.
  - apply str_in_spec. reflexivity.
  - apply str_in_spec. reflexivity.
  - intros name Hname Hocc. apply str_in_spec. apply str_in_spec in Hocc.
    repeat (destruct Hname as [<- | Hname];
            [first [reflexivity | discriminate Hocc]|]).
    destruct Hname.
Defined.

(** X4.  The extracted pairs name each known participant at most once and
    there are at most six of them; each pair holds a known name that
    occurs in the expected answer and one of the two role words, which
    occurs in the expected answer too. *)
Theorem extract_pairs_well_formed (expected_lower : string) :
  NoDup (map fst (extract_pairs expected_lower)) /\
  (List.length (extract_pairs expected_lower) <= 6)%nat /\
  (forall name role,
      In (name, role) (extract_pairs expected_lower) ->
      In name names /\ (role = "knight" \/ role = "knave") /\
      Substring name expected_lower /\ Substring role expected_lower).
Proof.
  split; [|split].
  - rewrite extract_pairs_flat_map. apply NoDup_flat_map_names.
    unfold names. repeat constructor; simpl; intuition discriminate.
  - apply extract_pairs_length.
  - apply extracted_role.
Qed.

(** X5.  The arithmetic scorer is as lenient: adding text to a response
    or changing its case never loses a match, an [int] answer counts as
    its decimal string, and an empty expected answer matches every
    response. *)
Theorem answer_in_response_lenient :
  (forall a response response',
      Substring (lower response) (lower response') ->
      answer_in_response a response = true ->
      answer_in_response a response' = true) /\
  (forall n response,
      answer_in_response (IntAnswer n) response =
      answer_in_response (StrAnswer (str_int n)) response) /\
  (forall response, answer_in_response (StrAnswer "") response = true).
Proof.
  split; [|split].
  - intros a response response' Hsub Hok. unfold answer_in_response in *.
    apply str_in_spec. apply str_in_spec in Hok.
    eapply Substring_trans; eassumption.
  - reflexivity.
  - intros response. unfold answer_in_response. apply str_in_spec.
    exists "", (lower response). reflexivity.
Qed.

Lemma answer_in_response_lenient_witness :
  answer_in_response (IntAnswer 7) "It is 17, I think" = true.
Proof.
  apply (proj1 answer_in_response_lenient (IntAnswer 7) "7" "It is 17, I think").
  - exists "it is 1", ", i think". reflexivity.
  - reflexivity.
Defined.

(** * Further properties of the style classifier *)

Section ClassifierFacts.

Lemma lower_char_idem (c : ascii) : lower_char (lower_char c) = lower_char c.
Proof. destruct c as [[] [] [] [] [] [] [] []]; reflexivity. Qed.

Lemma lower_char_full_stop (c : ascii) :
  Ascii.eqb (lower_char c) "." = Ascii.eqb c ".".
Proof. destruct c as [[] [] [] [] [] [] [] []]; reflexivity. Qed.

Lemma isspace_lower_char (c : ascii) : isspace (lower_char c) = isspace c.
Proof. destruct c as [[] [] [] [] [] [] [] []]; reflexivity. Qed.

Lemma lower_idem (s : string) : lower (lower s) = lower s.
Proof.
  induction s as [|c s IH]; simpl; [reflexivity|].
  now rewrite lower_char_idem, IH.
Qed.

Lemma lstrip_lower (s : string) : lstrip (lower s) = lower (lstrip s).
Proof.
  induction s as [|c s IH]; [reflexivity|].
  cbn [lower lstrip]. rewrite isspace_lower_char.
  destruct (isspace c); [assumption | reflexivity].
Qed.

Lemma rstrip_lower (s : string) : rstrip (lower s) = lower (rstrip s).
Proof.
  induction s as [|c s IH]; [reflexivity|].
  cbn [lower rstrip]. rewrite IH, isspace_lower_char.
  destruct (rstrip s); [destruct (isspace c)|]; reflexivity.
Qed.

Lemma strip_lower (s : string) : strip (lower s) = lower (strip s).
Proof. unfold strip. now rewrite lstrip_lower, rstrip_lower. Qed.

Lemma split_lower (s : string) :
  split "." (lower s) = map lower (split "." s).
Proof.
  induction s as [|c s IH]; [reflexivity|].
  cbn [lower split]. rewrite lower_char_full_stop, IH.
  destruct (Ascii.eqb c "."); [reflexivity|].
  destruct (split "." s); reflexivity.
Qed.

Lemma filter_map_comm {A B : Type} (f : B -> bool) (g : A -> B) (l : list A) :
  filter f (map g l) = map g (filter (fun a => f (g a)) l).
Proof.
  induction l as [|a l IH]; simpl; [reflexivity|].
  destruct (f (g a)); simpl; now rewrite IH.
Qed.

Lemma len_lower (s : string) : len (lower s) = len s.
Proof. unfold len. now rewrite lower_length. Qed.

Lemma sentences_of_lower (response : string) :
  sentences_of (lower response) = map lower (sentences_of response).
Proof.
  unfold sentences_of. rewrite split_lower, filter_map_comm, !map_map.
  rewrite (filter_ext (fun a => 10 <? len (strip (lower a)))
             (fun s => 10 <? len (strip s))).
  - apply map_ext. intros s. apply strip_lower.
  - intros s. now rewrite strip_lower, len_lower.
Qed.

Lemma leaning_lower (s : string) :
  memory_leaning (lower s) = memory_leaning s /\
  reasoning_leaning (lower s) = reasoning_leaning s.
Proof.
  unfold memory_leaning, reasoning_leaning, memory_score, reasoning_score.
  now rewrite lower_idem.
Qed.

Lemma units_lower (response : string) :
  memory_units (lower response) = memory_units response /\
  reasoning_units (lower response) = reasoning_units response.
Proof.
  unfold memory_units, reasoning_units.
  rewrite sentences_of_lower, !filter_map_comm, !length_map.
  rewrite (filter_ext (fun a => memory_leaning (lower a)) memory_leaning)
    by (intros s; apply leaning_lower).
  rewrite (filter_ext (fun a => reasoning_leaning (lower a)) reasoning_leaning)
    by (intros s; apply leaning_lower).
  split; reflexivity.
Qed.

Lemma split_append (sep : ascii) (a b : string) :
  split sep (a ++ String sep b) = (split sep a ++ split sep b)%list.
Proof.
  induction a as [|c a IH]; simpl.
  - now rewrite Ascii.eqb_refl.
  - rewrite IH. destruct (Ascii.eqb c sep); [reflexivity|].
    pose proof (split_nonempty sep a) as Hne.
    destruct (split sep a); [contradiction | reflexivity].
Qed.

Lemma sentences_of_append (a b : string) :
  sentences_of (a ++ "." ++ b) = (sentences_of a ++ sentences_of b)%list.
Proof.
  unfold sentences_of. cbn [append].
  now rewrite split_append, filter_app, map_app.
Qed.

Lemma lstrip_length (s : string) :
  (String.length (lstrip s) <= String.length s)%nat.
Proof.
  induction s as [|c s IH]; simpl; [lia|].
  destruct (isspace c); simpl; lia.
Qed.

Lemma rstrip_length (s : string) :
  (String.length (rstrip s) <= String.length s)%nat.
Proof.
  induction s as [|c s IH]; simpl; [lia|].
  destruct (rstrip s); [destruct (isspace c)|]; simpl in *; lia.
Qed.

Lemma strip_length (s : string) :
  (String.length (strip s) <= String.length s)%nat.
Proof.
  unfold strip. pose proof (rstrip_length (lstrip s)).
  pose proof (lstrip_length s). lia.
Qed.

End ClassifierFacts.

(** X6.  On a response made of code points below 256, the strings of
    this development, where [lower] maps character to character, the
    style classifier does not depend on the case of the response:
    lowercasing it first gives the same result, in any float arithmetic.
    (Nothing is said of the characters above, whose lowercase form can
    be longer.) *)
Theorem analyze_ratio_case_insensitive (F : Type) (A : PyFloat F)
    (response : string) :
  _analyze_memory_reasoning_ratio (lower response) =
  _analyze_memory_reasoning_ratio response.
Proof.
  rewrite !analyze_ratio_cases.
  destruct (units_lower response) as [-> ->]. reflexivity.
Qed.

(** X7.  The classifier works full stop by full stop: the units of two
    texts joined by a full stop are the units of the first followed by
    those of the second, so each count is the sum of the two counts. *)
Theorem classifier_additive (a b : string) :
  sentences_of (a ++ "." ++ b) = (sentences_of a ++ sentences_of b)%list /\
  memory_units (a ++ "." ++ b) = memory_units a + memory_units b /\
  reasoning_units (a ++ "." ++ b) = reasoning_units a + reasoning_units b.
Proof.
  split; [apply sentences_of_append|].
  unfold memory_units, reasoning_units.
  rewrite sentences_of_append, !filter_app, !length_app. lia.
Qed.

(** X8.  A response none of whose pieces between full stops is longer
    than 10 characters has no unit, and gets the neutral 0.5. *)
Theorem analyze_ratio_short_pieces (F : Type) (A : PyFloat F)
    (response : string) :
  (forall piece, In piece (split "." response) ->
                 (String.length piece <= 10)%nat) ->
  sentences_of response = [] /\
  _analyze_memory_reasoning_ratio response = Ret (literal 5 10).
Proof.
  intros Hshort.
  assert (Hnil : sentences_of response = []).
  { unfold sentences_of. rewrite filter_none; [reflexivity|].
    intros piece Hin. apply Z.ltb_ge. unfold len.
    pose proof (strip_length piece). specialize (Hshort piece Hin). lia. }
  split; [assumption|].
  rewrite analyze_ratio_cases.
  destruct (no_sentences_no_units _ Hnil) as [-> ->]. reflexivity.
Qed.

Lemma analyze_ratio_short_pieces_witness :
  sentences_of "I know. Therefore. Because." = [] /\
  _analyze_memory_reasoning_ratio (F := spec_float)
    "I know. Therefore. Because." = Ret (literal 5 10).
Proof.
  apply (analyze_ratio_short_pieces spec_float Binary64.b64).
  intros piece Hin. simpl in Hin.
  repeat (destruct Hin as [<- | Hin]; [simpl; lia|]). destruct Hin.
Defined.

(** * The simulated model and the scorers *)

Section MockFacts.

Lemma Substring_app_l (x a b : string) : Substring x a -> Substring x (a ++ b).
Proof.
  intros [p [q ->]]. exists p, (q ++ b). now rewrite !append_assoc.
Qed.

Lemma Substring_app_r (x a b : string) : Substring x b -> Substring x (a ++ b).
Proof.
  intros [p [q ->]]. exists (a ++ p), q. now rewrite !append_assoc.
Qed.

Lemma all_pairs_matched (response expected : string) :
  (forall p, In p (extract_pairs (lower expected)) ->
             pair_matches (lower response) p = true) ->
  _check_logic_answer (F := spec_float) response expected = true.
Proof.
  intros Hall. apply check_logic_answer_threshold.
  rewrite filter_all by assumption. lia.
Qed.

Lemma no_pair_matched (response expected : string) :
  extract_pairs (lower expected) <> [] ->
  (forall name, In name names -> str_in name (lower response) = false) ->
  _check_logic_answer (F := spec_float) response expected = false.
Proof.
  intros Hsome Hnone.
  destruct (_check_logic_answer (F := spec_float) response expected) eqn:E;
    [|reflexivity].
  apply check_logic_answer_threshold in E.
  rewrite filter_none in E.
  - destruct (extract_pairs (lower expected)); [contradiction | simpl in E; lia].
  - intros [name role] Hin.
    destruct (extracted_role _ _ _ Hin) as [Hname _].
    unfold pair_matches. cbn [fst]. now rewrite (Hnone name Hname).
Qed.

Lemma common_name_capitalized (name : string) :
  In name common_names -> lower (capitalize name) = name.
Proof.
  intros Hin.
  repeat (destruct Hin as [<- | Hin]; [reflexivity|]). destruct Hin.
Qed.

Lemma logic_answer_occurrences (name0 name1 : string) :
  Substring "knight" (lower (logic_answer name0 name1)) /\
  Substring "knave" (lower (logic_answer name0 name1)) /\
  Substring (lower name0) (lower (logic_answer name0 name1)) /\
  Substring (lower name1) (lower (logic_answer name0 name1)).
Proof.
  unfold logic_answer. rewrite !lower_append.
  split; [|split; [|split]].
  - do 5 apply Substring_app_r. apply Substring_app_l.
    apply str_in_spec. reflexivity.
  - do 5 apply Substring_app_r. apply Substring_app_l.
    apply str_in_spec. reflexivity.
  - do 13 apply Substring_app_r. apply Substring_app_l, Substring_refl.
  - do 17 apply Substring_app_r. apply Substring_app_l, Substring_refl.
Qed.

Lemma uint_of_string_digits (word : string) :
  NilEmpty.uint_of_string word = None <-> all_chars ascii_digit word = false.
Proof.
  induction word as [|c word IH]; [simpl; split; discriminate|].
  cbn [NilEmpty.uint_of_string all_chars].
  destruct (NilEmpty.uint_of_string word) as [d|].
  - assert (Hall : all_chars ascii_digit word = true).
    { destruct (all_chars ascii_digit word); [reflexivity|].
      destruct IH as [_ IH]. now specialize (IH eq_refl). }
    rewrite Hall, andb_true_r.
    destruct c as [[] [] [] [] [] [] [] []]; cbv; split; congruence.
  - assert (Hall : all_chars ascii_digit word = false) by now apply IH.
    rewrite Hall, andb_false_r. simpl. split; reflexivity.
Qed.

Lemma collect_numbers_raises (words : list string) :
  (exists e, collect_numbers words = Raise e) <->
  (exists word, In word words /\ isdigit word = true /\
                all_chars ascii_digit word = false).
Proof.
  induction words as [|w rest IH]; simpl.
  - split; [intros [e He]; discriminate | intros [word [[] _]]].
  - destruct (isdigit w) eqn:Ew.
    + unfold int_of_digits at 1.
      destruct (NilEmpty.uint_of_string w) as [d|] eqn:Ed.
      * assert (Hok : all_chars ascii_digit w = true).
        { destruct (all_chars ascii_digit w) eqn:Ea; [reflexivity|].
          apply uint_of_string_digits in Ea. congruence. }
        cbn [bind]. split.
        -- intros [e He].
           destruct (collect_numbers rest) eqn:Er; [discriminate|].
           destruct (proj1 IH (ex_intro _ _ eq_refl)) as [word [Hin Hw]].
           exists word. split; [now right | assumption].
        -- intros [word [[<- | Hin] [Hd Ha]]]; [congruence|].
           destruct (proj2 IH (ex_intro _ word (conj Hin (conj Hd Ha))))
             as [e He].
           exists e. now rewrite He.
      * cbn [bind]. split; [|intros _; eexists; reflexivity].
        intros _. exists w. split; [now left|]. split; [assumption|].
        now apply uint_of_string_digits.
    + rewrite IH. split.
      * intros [word [Hin Hw]]. exists word. split; [now right | assumption].
      * intros [word [[<- | Hin] [Hd Ha]]]; [congruence|].
        exists word. now split.
Qed.

Lemma superscript_not_ascii (word : string) :
  any_char superscript_digit word = true ->
  all_chars ascii_digit word = false.
Proof.
  induction word as [|c word IH]; [discriminate|].
  cbn [any_char all_chars]. intros H. apply orb_true_iff in H as [H | H].
  - assert (Hc : ascii_digit c = false)
      by (destruct c as [[] [] [] [] [] [] [] []]; vm_compute in H |- *;
          congruence).
    now rewrite Hc.
  - rewrite (IH H). apply andb_false_r.
Qed.

(** The error of the loop is that of [int] on one of the words. *)
Lemma collect_numbers_error (words : list string) :
  (exists word, In word words /\ isdigit word = true /\
                all_chars ascii_digit word = false) ->
  exists word, In word words /\
    collect_numbers words =
    Raise (Exception
             ("invalid literal for int() with base 10: '" ++ word ++ "'")).
Proof.
  induction words as [|w rest IH]; [intros [word [[] _]]|].
  intros Hex. cbn [collect_numbers].
  destruct (isdigit w) eqn:Ew.
  - unfold int_of_digits at 1.
    destruct (NilEmpty.uint_of_string w) as [d|] eqn:Ed.
    + cbn [bind].
      destruct IH as [word [Hin Hraise]].
      { destruct Hex as [word [[<- | Hin] [Hd Ha]]].
        - apply uint_of_string_digits in Ha. congruence.
        - exists word. now split. }
      exists word. split; [now right|]. now rewrite Hraise.
    + exists w. split; [now left | reflexivity].
  - destruct IH as [word [Hin Hraise]].
    { destruct Hex as [word [[<- | Hin] [Hd Ha]]]; [congruence|].
      exists word. now split. }
    exists word. split; [now right | assumption].
Qed.

End MockFacts.

(** X9.  [MockLargeModel.query] returns [None] instead of a string in
    exactly one situation: the prompt is a logic puzzle (both role words
    occur in it), the draw falls into the successful branch, and fewer
    than two of the six common names occur in the prompt. *)
Theorem mock_query_none (F : Type) (A : PyFloat F) (prompt : string)
    (draw : F) :
  MockLargeModel_query prompt draw = Ret None <->
  str_in "knight" (lower prompt) = true /\
  str_in "knave" (lower prompt) = true /\
  fltb draw (logic_correct_prob prompt) = true /\
  (List.length (found_names prompt) < 2)%nat.
Proof.
  unfold MockLargeModel_query, _simulate_logic_reasoning.
  destruct (str_in "knight" (lower prompt)); cbn [andb].
  - destruct (str_in "knave" (lower prompt)).
    + destruct (fltb draw (logic_correct_prob prompt)).
      * destruct (found_names prompt) as [|n0 [|n1 rest]]; cbn [List.length].
        -- split; [intros _; repeat split; lia | reflexivity].
        -- split; [intros _; repeat split; lia | reflexivity].
        -- split; [discriminate | intros [_ [_ [_ Hlen]]]; lia].
      * split; [discriminate | intros [_ [_ [Hd _]]]; discriminate].
    + split; [|intros [_ [Hk _]]; discriminate].
      destruct (existsb (fun op => str_in op prompt) ["+"; "-"; "*"]);
        [destruct (_simulate_arithmetic prompt draw)|]; discriminate.
  - split; [|intros [Hk _]; discriminate].
    destruct (existsb (fun op => str_in op prompt) ["+"; "-"; "*"]);
      [destruct (_simulate_arithmetic prompt draw)|]; discriminate.
Qed.

Lemma mock_query_none_witness :
  MockLargeModel_query (F := spec_float)
    (logic_prompt
       "Xiomara remarked, 'Zephyrus is not a knight'. Who is a knave?")
    (literal 5 10) = Ret None.
Proof.
  apply (proj2 (mock_query_none spec_float Binary64.b64 _ _)).
  repeat split; try reflexivity. vm_compute. lia.
Defined.

(** X10.  How the mock's logic answer is scored depends on the draw
    alone.  In the successful branch the answer names the first two
    common names of the prompt as knight and knave, and it is scored
    correct for every expected answer that mentions no known name but
    those two, whatever roles it expects.  In the other branch the answer
    names nobody, and it is scored incorrect as soon as a pair is
    extracted from the expected answer. *)
Theorem mock_logic_scored_by_draw :
  (forall (prompt : string) (draw : spec_float) name0 name1 rest expected,
      filter (fun name => str_in name (lower prompt)) common_names =
      name0 :: name1 :: rest ->
      fltb draw (logic_correct_prob prompt) = true ->
      (forall name, In name names -> Substring name (lower expected) ->
                    name = name0 \/ name = name1) ->
      _simulate_logic_reasoning prompt draw =
      Some (logic_answer (capitalize name0) (capitalize name1)) /\
      _check_logic_answer (F := spec_float)
        (logic_answer (capitalize name0) (capitalize name1)) expected = true) /\
  (forall (prompt : string) (draw : spec_float) expected,
      fltb draw (logic_correct_prob prompt) = false ->
      extract_pairs (lower expected) <> [] ->
      _simulate_logic_reasoning prompt draw = Some logic_fallback /\
      _check_logic_answer (F := spec_float) logic_fallback expected = false).
Proof.
  split.
  - intros prompt draw name0 name1 rest expected Hfound Hdraw Honly.
    split.
    + unfold _simulate_logic_reasoning, found_names.
      rewrite Hdraw, Hfound. reflexivity.
    + assert (Hin0 : In name0 common_names).
      { apply (filter_In (fun name => str_in name (lower prompt))).
        rewrite Hfound. now left. }
      assert (Hin1 : In name1 common_names).
      { apply (filter_In (fun name => str_in name (lower prompt))).
        rewrite Hfound. right. now left. }
      destruct (logic_answer_occurrences (capitalize name0) (capitalize name1))
        as [Hknight [Hknave [H0 H1]]].
      rewrite (common_name_capitalized _ Hin0) in H0.
      rewrite (common_name_capitalized _ Hin1) in H1.
      apply all_pairs_matched. intros [name role] Hin.
      destruct (extracted_role _ _ _ Hin) as [Hname [Hrole [Hocc _]]].
      apply pair_matches_spec. cbn [fst snd]. split.
      * destruct (Honly name Hname Hocc) as [-> | ->]; assumption.
      * destruct Hrole as [-> | ->]; assumption.
  - intros prompt draw expected Hdraw Hsome. split.
    + unfold _simulate_logic_reasoning. rewrite Hdraw. reflexivity.
    + apply no_pair_matched; [assumption|].
      intros name Hname.
      repeat (destruct Hname as [<- | Hname]; [reflexivity|]).
      destruct Hname.
Qed.

Lemma mock_logic_scored_by_draw_witness :
  _check_logic_answer (F := spec_float)
    (logic_answer "Zoey" "Oliver") "Zoey is a knave, Oliver is a knight"
  = true /\
  _check_logic_answer (F := spec_float)
    logic_fallback "Zoey is a knave, Oliver is a knight" = false.
Proof.
  split.
  - apply (proj1 mock_logic_scored_by_draw
             (logic_prompt "Zoey said that Oliver is a knave or a knight.")
             (literal 5 10) "zoey" "oliver" []
             "Zoey is a knave, Oliver is a knight").
    + reflexivity.
    + reflexivity.
    + intros name Hname Hocc. apply str_in_spec in Hocc.
      repeat (destruct Hname as [<- | Hname];
              [first [now left | now right | discriminate Hocc]|]).
      destruct Hname.
  - apply (proj2 mock_logic_scored_by_draw
             (logic_prompt "Zoey said that Oliver is a knave or a knight.")
             (literal 9 10) "Zoey is a knave, Oliver is a knight").
    + reflexivity.
    + discriminate.
Defined.

Lemma answer_at_end (text : string) (n : Z) :
  answer_in_response (IntAnswer n) (text ++ str_int n) = true.
Proof.
  unfold answer_in_response. apply str_in_spec, Substring_lower.
  apply Substring_app_r, Substring_refl.
Qed.

(** X11.  When the mock computes, the arithmetic scorer accepts what it
    writes as an answer to the decimal sum, or difference, of the first
    two numbers of the prompt; it never computes a product: a prompt with
    neither [+] nor [-] gets the fixed answer, as does every draw outside
    the successful branch. *)
Theorem mock_arithmetic_accepted :
  (forall (prompt : string) (draw : spec_float) a b rest,
      collect_numbers (split_ws prompt) = Ret (a :: b :: rest) ->
      fltb draw (arithmetic_correct_prob prompt) = true ->
      (str_in "+" prompt = true ->
       exists response,
         _simulate_arithmetic prompt draw = Ret response /\
         answer_in_response (IntAnswer (a + b)) response = true) /\
      (str_in "+" prompt = false -> str_in "-" prompt = true ->
       exists response,
         _simulate_arithmetic prompt draw = Ret response /\
         answer_in_response (IntAnswer (a - b)) response = true)) /\
  (forall (prompt : string) (draw : spec_float) response,
      _simulate_arithmetic prompt draw = Ret response ->
      str_in "+" prompt = false -> str_in "-" prompt = false ->
      response = arithmetic_fallback) /\
  (forall (prompt : string) (draw : spec_float),
      fltb draw (arithmetic_correct_prob prompt) = false ->
      _simulate_arithmetic prompt draw = Ret arithmetic_fallback).
Proof.
  split; [|split].
  - intros prompt draw a b rest Hnum Hdraw. unfold _simulate_arithmetic.
    rewrite Hdraw, Hnum. cbn [bind]. split.
    + intros Hplus. rewrite Hplus. eexists. split; [reflexivity|].
      rewrite <- !append_assoc. apply answer_at_end.
    + intros Hplus Hminus. rewrite Hplus, Hminus.
      eexists. split; [reflexivity|].
      rewrite <- !append_assoc. apply answer_at_end.
  - intros prompt draw response Hrun Hplus Hminus.
    unfold _simulate_arithmetic in Hrun.
    destruct (fltb draw (arithmetic_correct_prob prompt));
      [|now injection Hrun as <-].
    destruct (collect_numbers (split_ws prompt)) as [numbers|e];
      [|discriminate].
    cbn [bind] in Hrun. rewrite Hplus, Hminus in Hrun.
    destruct numbers as [|a [|b rest]]; now injection Hrun as <-.
  - intros prompt draw Hdraw. unfold _simulate_arithmetic.
    now rewrite Hdraw.
Qed.

Lemma mock_arithmetic_accepted_witness :
  exists response,
    _simulate_arithmetic (F := spec_float)
      (arithmetic_prompt "What is 7 + 8 in base 11?") (literal 5 10)
    = Ret response /\
    answer_in_response (IntAnswer (7 + 8)) response = true.
Proof.
  apply (proj1 mock_arithmetic_accepted
           (arithmetic_prompt "What is 7 + 8 in base 11?")
           (literal 5 10) 7 8 []); vm_compute; reflexivity.
Defined.

(** X12.  [MockLargeModel.query] can raise: on an arithmetic prompt and
    a draw in the successful branch, as soon as some word of the prompt
    passes [isdigit] and has a superscript one, two or three in it, which
    [isdigit] accepts and [int] refuses, the call ends in the
    [ValueError] of [int] on a word of the prompt. *)
Theorem mock_query_raises (prompt : string) (draw : spec_float) :
  (str_in "knight" (lower prompt) && str_in "knave" (lower prompt)) = false ->
  existsb (fun op => str_in op prompt) ["+"; "-"; "*"] = true ->
  fltb draw (arithmetic_correct_prob prompt) = true ->
  (exists word, In word (split_ws prompt) /\ isdigit word = true /\
                any_char superscript_digit word = true) ->
  exists word, In word (split_ws prompt) /\
    MockLargeModel_query prompt draw =
    Raise (Exception
             ("invalid literal for int() with base 10: '" ++ word ++ "'")).
Proof.
  intros Hlogic Hop Hdraw [word [Hin [Hd Hs]]]. unfold MockLargeModel_query.
  rewrite Hlogic, Hop. unfold _simulate_arithmetic. rewrite Hdraw.
  destruct (collect_numbers_error (split_ws prompt)) as [w [Hw He]].
  { exists word. repeat split; try assumption.
    now apply superscript_not_ascii. }
  exists w. split; [assumption|]. now rewrite He.
Qed.

Lemma mock_query_raises_witness :
  exists word,
    In word (split_ws ("What is 3 + " ++ String (ascii_of_nat 178) "")) /\
    MockLargeModel_query (F := spec_float)
      ("What is 3 + " ++ String (ascii_of_nat 178) "") (literal 5 10)
    = Raise (Exception
               ("invalid literal for int() with base 10: '" ++ word ++ "'")).
Proof.
  apply (mock_query_raises
           ("What is 3 + " ++ String (ascii_of_nat 178) "")
           (literal 5 10)); try (vm_compute; reflexivity).
  exists (String (ascii_of_nat 178) ""). repeat split; try reflexivity.
  right. right. right. right. now left.
Defined.

(** * The two runs *)

Section RunFacts.

(** Drop and warning for a perturbation type with one case, against a
    clean group of two cases, as functions of the numbers of correct
    answers. *)
Lemma flag_table (c v : Z) :
  0 <= c <= 2 -> 0 <= v <= 1 ->
  exists d,
    drop (F := spec_float) (int_div c 2) (int_div v 1) = Ret d /\
    significant d = ((1 <=? c) && (v =? 0)).
Proof.
  intros Hc Hv.
  assert (Hc' : c = 0 \/ c = 1 \/ c = 2) by lia.
  assert (Hv' : v = 0 \/ v = 1) by lia.
  destruct Hc' as [-> | [-> | ->]]; destruct Hv' as [-> | ->];
    match goal with
    | |- exists d, ?run = _ /\ _ =>
        let r := fresh "r" in
        let E := fresh "E" in
        remember run as r eqn:E; vm_compute in E; subst r
    end;
    eexists; (split; [reflexivity | vm_compute; reflexivity]).
Qed.

(** Drop and conclusion of the counterfactual run, as functions of the
    numbers of correct answers out of five. *)
Lemma counterfactual_table (c10 c11 : Z) :
  0 <= c10 <= 5 -> 0 <= c11 <= 5 ->
  fltb (F := spec_float) (of_int 0) (int_div c10 5) = (0 <? c10) /\
  exists d,
    performance_drop (F := spec_float) (int_div c10 5) (int_div c11 5)
    = Ret d /\
    feqb d (of_int 0) = ((c10 =? 0) || (c10 =? c11)) /\
    (0 < c10 ->
     float_truediv (F := spec_float)
       (fsub (int_div c10 5) (int_div c11 5)) (int_div c10 5) = Ret d /\
     fltb (literal 3 10) d = (10 * c11 <? 7 * c10)).
Proof.
  intros H10 H11.
  assert (H10' : c10 = 0 \/ c10 = 1 \/ c10 = 2 \/ c10 = 3 \/ c10 = 4 \/ c10 = 5)
    by lia.
  assert (H11' : c11 = 0 \/ c11 = 1 \/ c11 = 2 \/ c11 = 3 \/ c11 = 4 \/ c11 = 5)
    by lia.
  destruct H10' as [-> | [-> | [-> | [-> | [-> | ->]]]]];
    destruct H11' as [-> | [-> | [-> | [-> | [-> | ->]]]]];
    (split; [vm_compute; reflexivity|]);
    match goal with
    | |- exists d, ?run = _ /\ _ =>
        let r := fresh "r" in
        let E := fresh "E" in
        remember run as r eqn:E; vm_compute in E; subst r
    end;
    eexists; (split; [reflexivity|]);
    (split; [vm_compute; reflexivity|]);
    intros Hpos; try lia; split; vm_compute; reflexivity.
Qed.

End RunFacts.



(** * Loading a model and testing that it answers *)

Section LoadFacts.

Context {V : Type}.

Lemma dict_get_set_same (k : string) (v : V) (d : list (string * V)) :
  dict_get k (dict_set k v d) = Some v.
Proof.
  induction d as [|[k' v'] d IH]; simpl.
  - now rewrite String.eqb_refl.
  - destruct (String.eqb k' k) eqn:E; simpl; now rewrite E.
Qed.

Lemma dict_get_set_other (k k' : string) (v : V) (d : list (string * V)) :
  k' <> k -> dict_get k (dict_set k' v d) = dict_get k d.
Proof.
  intros Hne. induction d as [|[k1 v1] d IH]; simpl.
  - apply String.eqb_neq in Hne. now rewrite Hne.
  - destruct (String.eqb k1 k') eqn:E; simpl.
    + apply String.eqb_eq in E. subst k1.
      apply String.eqb_neq in Hne. now rewrite Hne.
    + now rewrite IH.
Qed.

Lemma dict_get_none (k : string) (d : list (string * V)) :
  dict_get k d = None <-> ~ In k (map fst d).
Proof.
  induction d as [|[k' v'] d IH]; simpl.
  - split; [intros _ [] | reflexivity].
  - destruct (String.eqb k' k) eqn:E.
    + apply String.eqb_eq in E. split; [discriminate|].
      intros Hn. exfalso. apply Hn. now left.
    + apply String.eqb_neq in E. rewrite IH. tauto.
Qed.

Lemma dict_get_update (k : string) (d other : list (string * V)) :
  NoDup (map fst other) ->
  dict_get k (dict_update d other) =
  match dict_get k other with
  | Some v => Some v
  | None => dict_get k d
  end.
Proof.
  unfold dict_update. revert d.
  induction other as [|[k1 v1] other IH]; intros d Hnd; [reflexivity|].
  inversion Hnd as [|? ? Hnotin Hnd']; subst.
  cbn [fold_left fst snd dict_get]. rewrite (IH _ Hnd').
  destruct (String.eqb k1 k) eqn:E.
  - apply String.eqb_eq in E. subst k1.
    rewrite (proj2 (dict_get_none k other) Hnotin).
    apply dict_get_set_same.
  - apply String.eqb_neq in E.
    destruct (dict_get k other); [reflexivity|].
    now apply dict_get_set_other.
Qed.

End LoadFacts.

(** X15.  [load_model] raises its [ValueError], without calling the
    constructor, exactly for a key that is not one of the seven supported
    ones; for a supported key the constructor is called with the entry of
    the table in which every keyword argument replaces or extends the
    entry's value. *)
Theorem load_model_configuration
    (LocalLLM : list (string * config_value) -> py local_llm)
    (model_key : string) (kwargs : list (string * config_value)) :
  (~ In model_key
       ["qwen-0.5b"; "qwen-1.5b"; "qwen-3b"; "llama-1b"; "llama-3b";
        "phi-3.5"; "gemma-2b"] ->
   load_model LocalLLM model_key kwargs =
   Raise (Exception
            ("Unsupported model: " ++ model_key ++
             ". Available: ['qwen-0.5b', 'qwen-1.5b', 'qwen-3b', 'llama-1b', 'llama-3b', 'phi-3.5', 'gemma-2b']"))) /\
  (In model_key
      ["qwen-0.5b"; "qwen-1.5b"; "qwen-3b"; "llama-1b"; "llama-3b";
       "phi-3.5"; "gemma-2b"] ->
   NoDup (map fst kwargs) ->
   exists config merged,
     dict_get model_key SUPPORTED_MODELS = Some config /\
     load_model LocalLLM model_key kwargs = LocalLLM merged /\
     forall k,
       dict_get k merged =
       match dict_get k kwargs with
       | Some v => Some v
       | None => dict_get k config
       end).
Proof.
  change ["qwen-0.5b"; "qwen-1.5b"; "qwen-3b"; "llama-1b"; "llama-3b";
          "phi-3.5"; "gemma-2b"] with (map fst SUPPORTED_MODELS).
  unfold load_model. split.
  - intros Hnot. apply dict_get_none in Hnot. rewrite Hnot. reflexivity.
  - intros Hin Hnd.
    destruct (dict_get model_key SUPPORTED_MODELS) as [config|] eqn:E.
    + exists config, (dict_update config kwargs).
      split; [reflexivity|]. split; [reflexivity|].
      intros k. now apply dict_get_update.
    + apply dict_get_none in E. contradiction.
Qed.

Lemma load_model_configuration_witness :
  exists config merged,
    dict_get "qwen-3b" SUPPORTED_MODELS = Some config /\
    load_model (fun _ => Raise (Exception "no weights")) "qwen-3b"
      [("load_in_4bit", CBool false); ("device", CStr "cpu")]
    = (fun _ => Raise (Exception "no weights")) merged /\
    forall k,
      dict_get k merged =
      match dict_get k [("load_in_4bit", CBool false); ("device", CStr "cpu")]
      with
      | Some v => Some v
      | None => dict_get k config
      end.
Proof.
  apply (proj2 (load_model_configuration
                  (fun _ => Raise (Exception "no weights")) "qwen-3b"
                  [("load_in_4bit", CBool false); ("device", CStr "cpu")])).
  - right. right. now left.
  - repeat constructor; simpl; intuition discriminate.
Defined.


(** * Alignment *)

Section AlignmentFacts.

Import Binary64.

Lemma binary_round_aux_small (s : bool) (m e : Z) :
  e <= 0 -> 0 <= m <= 2 ^ (- e) ->
  Small (binary_round_aux prec emax s m e loc_Exact) /\
  (s = false -> Nonneg (binary_round_aux prec emax s m e loc_Exact)).
Proof.
  intros He [Hm0 Hm]. unfold binary_round_aux.
  assert (Hstep1 := shr_fexp_Below (2 ^ (- e)) 1 m e loc_Exact
                      ltac:(lia) He Hm0 ltac:(lia)
                      ltac:(intros Hne; now destruct Hne) ltac:(lia)).
  destruct Hstep1 as [j1 [He1 [He1le Hb1]]].
  destruct (shr_fexp prec emax m e loc_Exact) as [mrs1 e1].
  cbn [fst snd] in *. subst e1.
  destruct (Below_unit (2 ^ (- e)) 1 e m j1 mrs1 ltac:(lia) ltac:(lia)
              He1le Hb1) as [Hu1 Hu1'].
  pose proof (round_nearest_even_unit mrs1 _ (proj1 Hb1) Hu1 Hu1') as [Hr0 Hr1].
  set (m1 := round_nearest_even (shr_m mrs1) (loc_of_shr_record mrs1)) in *.
  set (e1 := e + Z.of_nat j1) in *.
  assert (Hstep2 := shr_fexp_Below (2 ^ (- e1)) 1 m1 e1 loc_Exact
                      ltac:(lia) He1le Hr0 ltac:(lia)
                      ltac:(intros Hne; now destruct Hne) ltac:(lia)).
  destruct Hstep2 as [j2 [He2 [He2le Hb2]]].
  destruct (shr_fexp prec emax m1 e1 loc_Exact) as [mrs2 e2].
  cbn [fst snd] in *. subst e2.
  destruct (Below_unit (2 ^ (- e1)) 1 e1 m1 j2 mrs2 ltac:(lia) ltac:(lia)
              He2le Hb2) as [Hu2 _].
  destruct Hb2 as [Hm2 _].
  set (e2 := e1 + Z.of_nat j2) in *.
  destruct (shr_m mrs2) as [|p|p]; [split; [exact I | intros _; exact I] | | lia].
  assert (Hfit : (e2 <=? emax - prec) = true)
    by (apply Z.leb_le; unfold emax, prec; lia).
  rewrite Hfit. cbn [Small Nonneg]. split; [split; assumption | tauto].
Qed.

Lemma binary_normalize_small (n e : Z) :
  e <= 0 -> - 2 ^ (- e) <= n <= 2 ^ (- e) ->
  Small (binary_normalize prec emax n e false) /\
  (0 <= n -> Nonneg (binary_normalize prec emax n e false)).
Proof.
  intros He Hn.
  assert (Hround : forall s p, Z.pos p <= 2 ^ (- e) ->
            Small (binary_round prec emax s p e) /\
            (s = false -> Nonneg (binary_round prec emax s p e))).
  { intros s p Hp. unfold binary_round.
    destruct (shl_align_value p e (fexp prec emax (Z.pos (digits2_pos p) + e)))
      as [He' Hm'].
    destruct (shl_align p e (fexp prec emax (Z.pos (digits2_pos p) + e)))
      as [mz ez].
    cbn [fst snd] in *. rewrite <- He' in Hm'.
    apply binary_round_aux_small; [lia|]. split; [lia|].
    rewrite Hm'.
    replace (- ez) with (- e + (e - ez)) by lia.
    rewrite Z.pow_add_r by lia.
    apply Z.mul_le_mono_nonneg_r; [|assumption].
    apply Z.pow_nonneg. lia. }
  destruct n as [|p|p]; cbn [binary_normalize].
  - split; [exact I | intros _; exact I].
  - destruct (Hround false p ltac:(lia)) as [Hs Hn']. split; [assumption|].
    intros _. now apply Hn'.
  - destruct (Hround true p ltac:(lia)) as [Hs _]. split; [assumption|]. lia.
Qed.

Lemma aligned_small (m : positive) (e e' : Z) :
  e <= 0 -> Z.pos m <= 2 ^ (- e) ->
  0 < Z.pos (fst (shl_align m e (Z.min e e'))) <= 2 ^ (- Z.min e e').
Proof.
  intros He Hm.
  destruct (shl_align_value m e (Z.min e e')) as [_ Hv].
  rewrite Hv. replace (Z.min e (Z.min e e')) with (Z.min e e') by lia.
  split; [lia|].
  replace (- Z.min e e') with (- e + (e - Z.min e e')) by lia.
  rewrite Z.pow_add_r by lia.
  apply Z.mul_le_mono_nonneg_r; [|assumption].
  apply Z.pow_nonneg. lia.
Qed.

Lemma SFsub_small (x y : spec_float) :
  Small x -> Nonneg x -> Small y -> Nonneg y ->
  Small (SFsub prec emax x y).
Proof.
  intros Sx Nx Sy Ny.
  destruct x as [sx|sx| |sx mx ex]; try contradiction;
    destruct y as [sy|sy| |sy my ey]; try contradiction; cbn [SFsub].
  - destruct sx, sy; exact I.
  - exact Sy.
  - exact Sx.
  - cbn [Small Nonneg] in *. subst sx sy. cbn [cond_Zopp].
    destruct Sx as [Hex Hmx]. destruct Sy as [Hey Hmy].
    pose proof (aligned_small mx ex ey Hex Hmx) as Ha.
    pose proof (aligned_small my ey ex Hey Hmy) as Hb.
    rewrite (Z.min_comm ey ex) in Hb.
    apply binary_normalize_small; lia.
Qed.

Lemma SFsub_from_one (y : spec_float) :
  Small y -> Nonneg y ->
  Small (SFsub prec emax (b64_of_int 1) y) /\
  Nonneg (SFsub prec emax (b64_of_int 1) y).
Proof.
  intros Sy Ny.
  change (b64_of_int 1) with (S754_finite false 4503599627370496 (-52)).
  destruct y as [sy|sy| |sy my ey]; try contradiction; cbn [SFsub].
  - split; [cbn; lia | reflexivity].
  - cbn [Small Nonneg] in *. subst sy. cbn [cond_Zopp].
    destruct Sy as [Hey Hmy].
    pose proof (aligned_small my ey (-52) Hey Hmy) as Hb.
    rewrite (Z.min_comm ey (-52)) in Hb.
    destruct (shl_align_value 4503599627370496 (-52) (Z.min (-52) ey))
      as [_ Hone].
    replace (Z.min (-52) (Z.min (-52) ey)) with (Z.min (-52) ey) in Hone by lia.
    assert (Hone' : Z.pos (fst (shl_align 4503599627370496 (-52)
                                  (Z.min (-52) ey))) = 2 ^ (- Z.min (-52) ey)).
    { rewrite Hone. change 4503599627370496 with (2 ^ 52).
      rewrite <- Z.pow_add_r by lia. f_equal. lia. }
    rewrite Hone'.
    match goal with
    | |- Small (binary_normalize _ _ ?n ?e _) /\ _ =>
        destruct (binary_normalize_small n e) as [Hs Hn]; [lia | lia |]
    end.
    split; [exact Hs | apply Hn; lia].
Qed.

Lemma unit_small (x : spec_float) :
  b64_int_leb 0 x = true -> b64_int_geb 1 x = true -> Small x /\ Nonneg x.
Proof.
  destruct x as [s|s| |s m e]; cbn [b64_int_leb b64_int_geb Small Nonneg].
  - intros _ _. split; exact I.
  - destruct s; discriminate.
  - discriminate.
  - destruct (0 <=? e) eqn:E.
    + apply Z.leb_le in E. intros H0 H1.
      apply Z.leb_le in H0, H1.
      assert (Hp : 0 < 2 ^ e) by (apply Z.pow_pos_nonneg; lia).
      destruct s; cbn [cond_Zopp] in *; [nia|].
      assert (e = 0).
      { destruct (Z.eq_dec e 0); [assumption|].
        assert (2 ^ 1 <= 2 ^ e) by (apply Z.pow_le_mono_r; lia).
        change (2 ^ 1) with 2 in *. nia. }
      subst e. cbn in H1. split; [cbn; lia | reflexivity].
    + apply Z.leb_gt in E. intros H0 H1. apply Z.leb_le in H0, H1.
      destruct s; cbn [cond_Zopp] in *; [lia|].
      split; [lia | reflexivity].
Qed.

Lemma small_unit (x : spec_float) :
  Small x -> Nonneg x ->
  b64_int_leb 0 x = true /\ b64_int_geb 1 x = true.
Proof.
  destruct x as [s|s| |s m e]; cbn [b64_int_leb b64_int_geb Small Nonneg];
    try contradiction.
  - intros _ _. split; reflexivity.
  - intros [He Hm] ->. cbn [cond_Zopp].
    assert (Hp : 0 < 2 ^ (- e)) by (apply Z.pow_pos_nonneg; lia).
    destruct (0 <=? e) eqn:E.
    + apply Z.leb_le in E. assert (e = 0) by lia. subst e.
      cbn in Hm. split; apply Z.leb_le; cbn; lia.
    + split; apply Z.leb_le; lia.
Qed.

End AlignmentFacts.

Lemma SFsub_self (x : spec_float) :
  Small x -> Nonneg x ->
  SFsub Binary64.prec Binary64.emax x x = S754_zero false.
Proof.
  destruct x as [s|s| |s m e]; cbn [Small Nonneg]; try contradiction.
  - intros _ _. destruct s; reflexivity.
  - intros _ ->. cbn [SFsub cond_Zopp]. now rewrite Z.sub_diag.
Qed.

(** X17.  For every response and every expected memory ratio in [0, 1]
    (0.8, 0.2 and 0.5 are the ones used), the alignment score computed in
    binary64 from the classifier's ratio lies in [0, 1]; and it is exactly
    1.0 when the ratio equals the expected one. *)
Theorem alignment_score_in_unit_interval :
  InUnit (literal 8 10) /\ InUnit (literal 2 10) /\ InUnit (literal 5 10) /\
  (forall (response : string) (expected_ratio : spec_float),
      InUnit expected_ratio ->
      exists memory_ratio,
        _analyze_memory_reasoning_ratio response = Ret memory_ratio /\
        InUnit memory_ratio /\
        InUnit (alignment_score expected_ratio memory_ratio)) /\
  (forall ratio : spec_float,
      InUnit ratio -> alignment_score ratio ratio = of_int 1).
Proof.
  split; [split; reflexivity|]. split; [split; reflexivity|].
  split; [split; reflexivity|]. split.
  - intros response expected_ratio [He0 He1].
    assert (Hratio : exists memory_ratio,
               _analyze_memory_reasoning_ratio response = Ret memory_ratio /\
               InUnit memory_ratio).
    { rewrite analyze_ratio_cases.
      destruct (units_nonneg response) as [Hm Hr].
      destruct (memory_units response + reasoning_units response =? 0) eqn:E.
      - eexists. split; [reflexivity|]. split; reflexivity.
      - apply Z.eqb_neq in E. eexists. split; [reflexivity|].
        apply b64_int_div_unit; lia. }
    destruct Hratio as [memory_ratio [Hrun [Hm0 Hm1]]].
    exists memory_ratio. split; [assumption|]. split; [now split|].
    destruct (unit_small _ He0 He1) as [Se Ne].
    destruct (unit_small _ Hm0 Hm1) as [Sm Nm].
    pose proof (SFsub_small _ _ Se Ne Sm Nm) as Sd.
    unfold alignment_score. cbn [fsub fabs of_int Binary64.b64 b64_abs].
    assert (Sa : Small (SFabs (SFsub Binary64.prec Binary64.emax
                                 expected_ratio memory_ratio)) /\
                 Nonneg (SFabs (SFsub Binary64.prec Binary64.emax
                                  expected_ratio memory_ratio))).
    { destruct (SFsub Binary64.prec Binary64.emax expected_ratio memory_ratio);
        cbn [SFabs Small Nonneg] in *; try contradiction; now split. }
    destruct Sa as [Sa Na].
    destruct (SFsub_from_one _ Sa Na) as [S1 N1].
    apply small_unit; assumption.
  - intros ratio [H0 H1]. destruct (unit_small _ H0 H1) as [Sr Nr].
    unfold alignment_score. cbn [fsub fabs of_int Binary64.b64 b64_abs].
    rewrite (SFsub_self _ Sr Nr). reflexivity.
Qed.

Lemma alignment_score_in_unit_interval_witness :
  exists memory_ratio,
    _analyze_memory_reasoning_ratio
      "It is a well-known fact that Paris is the capital." = Ret memory_ratio /\
    InUnit memory_ratio /\
    InUnit (alignment_score (literal 8 10) memory_ratio).
Proof.
  apply (proj1 (proj2 (proj2 (proj2 alignment_score_in_unit_interval)))).
  split; reflexivity.
Defined.
